(** * YapAI: the interaction controller, the history cache and the
      recording session of [App] (src/types.ts), as a state machine.

    The React component is embedded by explicit state passing: the values
    held by [useState] form a record, the two [useRef] cells, the browser's
    [localStorage], the console and the log of remote calls form the rest of
    the world, and every handler of the component is a function on worlds.
    An [await] splits a handler in the part before the call and the part run
    when the call settles; the result of the remote call is an argument of
    the second part. *)

From stdpp Require Import gmap list.
From Stdlib Require Import NArith ZArith String Ascii Lia.
From Stdlib Require DecimalN.

Open Scope N_scope.

(** ** JavaScript strings

    A JavaScript string is a sequence of UTF-16 code units. *)

Definition jsstring := list N.

(** An ASCII literal of the source as a JavaScript string. *)
Definition js (s : string) : jsstring :=
  List.map N_of_ascii (list_ascii_of_string s).

Definition jsstring_eqb (a b : jsstring) : bool := bool_decide (a = b).

(** [WhiteSpace] and [LineTerminator] of ECMAScript, the code units that
    [String.prototype.trim] strips: TAB, LF, VT, FF, CR, SP, NBSP, the
    space separators of Unicode, LS, PS and the byte order mark. *)
Definition isWhiteSpace (c : N) : bool :=
  (9 <=? c) && (c <=? 13)
  || (c =? 32) || (c =? 160) || (c =? 5760)
  || (8192 <=? c) && (c <=? 8202)
  || (c =? 8232) || (c =? 8233) || (c =? 8239) || (c =? 8287)
  || (c =? 12288) || (c =? 65279).

Fixpoint dropWhile {A} (p : A -> bool) (l : list A) : list A :=
  match l with
  | [] => []
  | x :: l' => if p x then dropWhile p l' else l
  end.

Definition trimStart (s : jsstring) : jsstring := dropWhile isWhiteSpace s.
Definition trimEnd (s : jsstring) : jsstring :=
  rev (dropWhile isWhiteSpace (rev s)).

(** [s.trim()] *)
Definition trim (s : jsstring) : jsstring := trimEnd (trimStart s).

(** Truthiness of a string: only the empty string is falsy. *)
Definition truthy (s : jsstring) : bool :=
  match s with [] => false | _ :: _ => true end.

(** ** JSON values

    The values [JSON.parse] can return.  A number is kept as the exact
    decimal [m * 10^e] it was written as, with [m] free of trailing zeros
    (JavaScript rounds it to a binary64 float; nothing below computes with
    numbers).  An object keeps its members in the order of their first
    occurrence. *)

#[warnings="-register-all"]
Inductive JSValue :=
| JNull
| JBool (b : bool)
| JNum (m e : Z)
| JStr (s : jsstring)
| JArr (elems : list JSValue)
| JObj (members : list (jsstring * JSValue)).

(** [digits] are decimal digit values, most significant first. *)
Definition digitsValue (digits : list N) : N :=
  fold_left (fun acc d => acc * 10 + d) digits 0.

Definition decimal (negative : bool) (digits : list N) (exp : Z) : JSValue :=
  let significant := rev (dropWhile (N.eqb 0) (rev digits)) in
  let zeros := (List.length digits - List.length significant)%nat in
  let m := Z.of_N (digitsValue significant) in
  if (m =? 0)%Z then JNum 0 0
  else JNum (if negative then - m else m)%Z (exp + Z.of_nat zeros)%Z.

Fixpoint uintDigits (d : Decimal.uint) : list N :=
  match d with
  | Decimal.Nil => []
  | Decimal.D0 d => 0 :: uintDigits d
  | Decimal.D1 d => 1 :: uintDigits d
  | Decimal.D2 d => 2 :: uintDigits d
  | Decimal.D3 d => 3 :: uintDigits d
  | Decimal.D4 d => 4 :: uintDigits d
  | Decimal.D5 d => 5 :: uintDigits d
  | Decimal.D6 d => 6 :: uintDigits d
  | Decimal.D7 d => 7 :: uintDigits d
  | Decimal.D8 d => 8 :: uintDigits d
  | Decimal.D9 d => 9 :: uintDigits d
  end.

Definition digitsOf (n : N) : list N := uintDigits (N.to_uint n).

(** An integer of the program (a timestamp) as a JSON number. *)
Definition numberOfZ (z : Z) : JSValue :=
  decimal (z <? 0)%Z (digitsOf (Z.abs_N z)) 0.

(** Assignment to a property: an existing key keeps its place. *)
Fixpoint setMember (k : jsstring) (v : JSValue)
    (ms : list (jsstring * JSValue)) : list (jsstring * JSValue) :=
  match ms with
  | [] => [(k, v)]
  | (k', v') :: ms' =>
      if jsstring_eqb k k' then (k, v) :: ms' else (k', v') :: setMember k v ms'
  end.

(** ** [JSON.parse]

    The grammar of ECMA-404, read in two passes that both walk their input
    once: a lexer from code units to tokens, and a parser from tokens to a
    value that keeps the open arrays and objects on a stack. *)

Inductive Token :=
| TLBracket | TRBracket | TLBrace | TRBrace | TComma | TColon
| TScalar (v : JSValue).

Definition ch (c : ascii) : N := N_of_ascii c.

Definition isJSONSpace (c : N) : bool :=
  (c =? 32) || (c =? 9) || (c =? 10) || (c =? 13).
Definition isDigit (c : N) : bool := (48 <=? c) && (c <=? 57).
Definition isLower (c : N) : bool := (97 <=? c) && (c <=? 122).
Definition isNumberChar (c : N) : bool :=
  isDigit c || (c =? ch "-") || (c =? ch "+") || (c =? ch ".")
  || (c =? ch "e") || (c =? ch "E").

Definition hexValue (c : N) : option N :=
  if isDigit c then Some (c - 48)
  else if (97 <=? c) && (c <=? 102) then Some (c - 87)
  else if (65 <=? c) && (c <=? 70) then Some (c - 55)
  else None.

Fixpoint spanDigits (s : list N) : list N * list N :=
  match s with
  | c :: s' =>
      if isDigit c then let (ds, rest) := spanDigits s' in (c - 48 :: ds, rest)
      else ([], s)
  | [] => ([], [])
  end.

(** number = [ minus ] int [ frac ] [ exp ] *)
Definition parseNumber (s : list N) : option JSValue :=
  let (negative, s1) :=
    match s with
    | c :: s' => if c =? ch "-" then (true, s') else (false, s)
    | [] => (false, s)
    end in
  let (int, s2) := spanDigits s1 in
  let intOk :=
    match int with
    | [] => false
    | [_] => true
    | d :: _ => negb (d =? 0)
    end in
  let '(frac, fracOk, s3) :=
    match s2 with
    | c :: s' =>
        if c =? ch "." then
          let (ds, rest) := spanDigits s' in (ds, truthy ds, rest)
        else ([], true, s2)
    | [] => ([], true, s2)
    end in
  let '(exp, expOk, s4) :=
    match s3 with
    | c :: s' =>
        if (c =? ch "e") || (c =? ch "E") then
          let (expNegative, s'') :=
            match s' with
            | d :: t =>
                if d =? ch "-" then (true, t)
                else if d =? ch "+" then (false, t) else (false, s')
            | [] => (false, s')
            end in
          let (ds, rest) := spanDigits s'' in
          let n := Z.of_N (digitsValue ds) in
          (if expNegative then (- n)%Z else n, truthy ds, rest)
        else (0%Z, true, s3)
    | [] => (0%Z, true, s3)
    end in
  if intOk && fracOk && expOk && negb (truthy s4)
  then Some (decimal negative (int ++ frac) (exp - Z.of_nat (List.length frac))%Z)
  else None.

Definition parseWord (s : list N) : option JSValue :=
  if jsstring_eqb s (js "null") then Some JNull
  else if jsstring_eqb s (js "true") then Some (JBool true)
  else if jsstring_eqb s (js "false") then Some (JBool false)
  else None.

(** The lexer's state; characters collected so far are kept in reverse. *)
Inductive LexState :=
| LBetween
| LWord (seen : list N)
| LNumber (seen : list N)
| LString (seen : list N)
| LEscape (seen : list N)
| LHex (seen : list N) (count : nat) (code : N).

Definition lexStart (c : N) : option (LexState * list Token) :=
  if isJSONSpace c then Some (LBetween, [])
  else if c =? ch "[" then Some (LBetween, [TLBracket])
  else if c =? ch "]" then Some (LBetween, [TRBracket])
  else if c =? ch "{" then Some (LBetween, [TLBrace])
  else if c =? ch "}" then Some (LBetween, [TRBrace])
  else if c =? ch "," then Some (LBetween, [TComma])
  else if c =? ch ":" then Some (LBetween, [TColon])
  else if c =? 34 then Some (LString [], [])
  else if isDigit c || (c =? ch "-") then Some (LNumber [c], [])
  else if isLower c then Some (LWord [c], [])
  else None.

Definition lexAfter (v : option JSValue) (c : N)
    : option (LexState * list Token) :=
  match v, lexStart c with
  | Some v, Some (st, toks) => Some (st, TScalar v :: toks)
  | _, _ => None
  end.

Definition lexStep (st : LexState) (c : N) : option (LexState * list Token) :=
  match st with
  | LBetween => lexStart c
  | LWord seen =>
      if isLower c then Some (LWord (c :: seen), [])
      else lexAfter (parseWord (rev seen)) c
  | LNumber seen =>
      if isNumberChar c then Some (LNumber (c :: seen), [])
      else lexAfter (parseNumber (rev seen)) c
  | LString seen =>
      if c =? 34 then Some (LBetween, [TScalar (JStr (rev seen))])
      else if c =? 92 then Some (LEscape seen, [])
      else if c <? 32 then None
      else Some (LString (c :: seen), [])
  | LEscape seen =>
      if (c =? 34) || (c =? 92) || (c =? ch "/") then Some (LString (c :: seen), [])
      else if c =? ch "b" then Some (LString (8 :: seen), [])
      else if c =? ch "f" then Some (LString (12 :: seen), [])
      else if c =? ch "n" then Some (LString (10 :: seen), [])
      else if c =? ch "r" then Some (LString (13 :: seen), [])
      else if c =? ch "t" then Some (LString (9 :: seen), [])
      else if c =? ch "u" then Some (LHex seen 0 0, [])
      else None
  | LHex seen count code =>
      match hexValue c with
      | Some d =>
          let code' := code * 16 + d in
          if (count =? 3)%nat then Some (LString (code' :: seen), [])
          else Some (LHex seen (S count) code', [])
      | None => None
      end
  end.

Definition lexEnd (st : LexState) : option (list Token) :=
  match st with
  | LBetween => Some []
  | LWord seen => option_map (fun v => [TScalar v]) (parseWord (rev seen))
  | LNumber seen => option_map (fun v => [TScalar v]) (parseNumber (rev seen))
  | LString _ | LEscape _ | LHex _ _ _ => None
  end.

Fixpoint lex (st : LexState) (s : list N) : option (list Token) :=
  match s with
  | [] => lexEnd st
  | c :: s' =>
      match lexStep st c with
      | Some (st', toks) => option_map (app toks) (lex st' s')
      | None => None
      end
  end.

(** An array or object still open: what it holds so far (in reverse) and,
    for an object, the key whose value is being read. *)
Inductive Frame :=
| FArr (seen : list JSValue)
| FObj (seen : list (jsstring * JSValue)) (key : jsstring).

(** What the grammar allows next. *)
Inductive Expect :=
| EValue              (* a value *)
| EValueOrClose       (* just after [: a value or ] *)
| EKeyOrClose         (* just after {: a key or } *)
| EKey                (* after a comma in an object: a key *)
| EColon (key : jsstring)
| EAfter              (* after a value in a container: a comma or its end *)
| EDone (v : JSValue) (* the text's value is complete *).

Definition ParseState : Type := Expect * list Frame.

(** A value is complete: it is the text's value, or goes to the innermost
    open container. *)
Definition complete (v : JSValue) (stack : list Frame) : ParseState :=
  match stack with
  | [] => (EDone v, [])
  | FArr seen :: stack' => (EAfter, FArr (v :: seen) :: stack')
  | FObj seen key :: stack' => (EAfter, FObj ((key, v) :: seen) key :: stack')
  end.

(** The members of an object literal, assigned left to right. *)
Definition objectOf (seen : list (jsstring * JSValue)) : JSValue :=
  JObj (fold_left (fun ms kv => setMember kv.1 kv.2 ms) (rev seen) []).

Definition parseValueStart (t : Token) (stack : list Frame) : option ParseState :=
  match t with
  | TScalar v => Some (complete v stack)
  | TLBracket => Some (EValueOrClose, FArr [] :: stack)
  | TLBrace => Some (EKeyOrClose, FObj [] [] :: stack)
  | _ => None
  end.

Definition parseStep (st : ParseState) (t : Token) : option ParseState :=
  let (expect, stack) := st in
  match expect with
  | EValue => parseValueStart t stack
  | EValueOrClose =>
      match t, stack with
      | TRBracket, FArr seen :: stack' => Some (complete (JArr (rev seen)) stack')
      | _, _ => parseValueStart t stack
      end
  | EKeyOrClose =>
      match t, stack with
      | TRBrace, FObj seen _ :: stack' => Some (complete (objectOf seen) stack')
      | TScalar (JStr k), _ => Some (EColon k, stack)
      | _, _ => None
      end
  | EKey =>
      match t with
      | TScalar (JStr k) => Some (EColon k, stack)
      | _ => None
      end
  | EColon k =>
      match t, stack with
      | TColon, FObj seen _ :: stack' => Some (EValue, FObj seen k :: stack')
      | _, _ => None
      end
  | EAfter =>
      match t, stack with
      | TComma, FArr _ :: _ => Some (EValue, stack)
      | TRBracket, FArr seen :: stack' => Some (complete (JArr (rev seen)) stack')
      | TComma, FObj _ _ :: _ => Some (EKey, stack)
      | TRBrace, FObj seen _ :: stack' => Some (complete (objectOf seen) stack')
      | _, _ => None
      end
  | EDone _ => None
  end.

Fixpoint parseTokens (st : ParseState) (ts : list Token) : option JSValue :=
  match ts with
  | [] => match st with (EDone v, _) => Some v | _ => None end
  | t :: ts' =>
      match parseStep st t with
      | Some st' => parseTokens st' ts'
      | None => None
      end
  end.

(** [JSON.parse(text)]: the value, or [None] where it throws a
    [SyntaxError]. *)
Definition JSON_parse (text : jsstring) : option JSValue :=
  match lex LBetween text with
  | Some ts => parseTokens (EValue, []) ts
  | None => None
  end.

(** ** [JSON.stringify] *)

Definition hexDigit (d : N) : N := if d <? 10 then 48 + d else 87 + d.

(** backslash, u and four lower-case hexadecimal digits *)
Definition unicodeEscape (c : N) : jsstring :=
  [92; ch "u"; hexDigit (c / 4096 mod 16); hexDigit (c / 256 mod 16);
   hexDigit (c / 16 mod 16); hexDigit (c mod 16)].

Definition isHighSurrogate (c : N) : bool := (55296 <=? c) && (c <=? 56319).
Definition isLowSurrogate (c : N) : bool := (56320 <=? c) && (c <=? 57343).

Definition quoteUnit (c : N) : jsstring :=
  if c =? 8 then [92; ch "b"]
  else if c =? 9 then [92; ch "t"]
  else if c =? 10 then [92; ch "n"]
  else if c =? 12 then [92; ch "f"]
  else if c =? 13 then [92; ch "r"]
  else if c =? 34 then [92; 34]
  else if c =? 92 then [92; 92]
  else if (c <? 32) || isHighSurrogate c || isLowSurrogate c
  then unicodeEscape c
  else [c].

(** The characters of a quoted string: a surrogate pair is kept, a lone
    surrogate is escaped. *)
Fixpoint quoteUnits (s : jsstring) : jsstring :=
  match s with
  | [] => []
  | c :: rest =>
      match rest with
      | d :: rest' =>
          if isHighSurrogate c && isLowSurrogate d
          then c :: d :: quoteUnits rest'
          else quoteUnit c ++ quoteUnits rest
      | [] => quoteUnit c
      end
  end.

Definition quoteJSONString (s : jsstring) : jsstring :=
  34 :: quoteUnits s ++ [34].

Definition digitChars (ds : list N) : jsstring := List.map (N.add 48) ds.

(** A number in positional notation (JavaScript switches to exponent
    notation from 1e21 on and below 1e-6). *)
Definition numberToString (m e : Z) : jsstring :=
  let sign := if (m <? 0)%Z then [ch "-"] else [] in
  let ds := digitsOf (Z.abs_N m) in
  if (0 <=? e)%Z then sign ++ digitChars (ds ++ repeat 0 (Z.to_nat e))
  else
    let k := Z.to_nat (- e) in
    let n := List.length ds in
    if (k <? n)%nat
    then sign ++ digitChars (take (n - k) ds) ++ [ch "."] ++ digitChars (drop (n - k) ds)
    else sign ++ js "0." ++ digitChars (repeat 0 (k - n) ++ ds).

Fixpoint joinWith (sep : jsstring) (parts : list jsstring) : jsstring :=
  match parts with
  | [] => []
  | [p] => p
  | p :: parts' => p ++ sep ++ joinWith sep parts'
  end.

Fixpoint JSON_stringify (v : JSValue) : jsstring :=
  match v with
  | JNull => js "null"
  | JBool true => js "true"
  | JBool false => js "false"
  | JNum m e => numberToString m e
  | JStr s => quoteJSONString s
  | JArr elems =>
      js "[" ++ joinWith (js ",") (List.map JSON_stringify elems) ++ js "]"
  | JObj members =>
      js "{"
      ++ joinWith (js ",")
           (List.map (fun kv => quoteJSONString kv.1 ++ js ":" ++ JSON_stringify kv.2)
              members)
      ++ js "}"
  end.

(** ** The data model (types.ts) *)

Inductive YapStyle :=
| DEFAULT | ZOOMER | CORPORATE | ACADEMIC | PIRATE
| SHAKESPEAREAN | LINKEDIN | TECH_BRO | ANGRY_BOOMER | PHILOSOPHER.

Definition YapStyle_value (s : YapStyle) : jsstring :=
  match s with
  | DEFAULT => js "Default"
  | ZOOMER => js "Zoomer / Brainrot"
  | CORPORATE => js "Corporate Speak"
  | ACADEMIC => js "Academic / Intellectual"
  | PIRATE => js "Pirate"
  | SHAKESPEAREAN => js "Shakespearean"
  | LINKEDIN => js "LinkedIn Lunatic"
  | TECH_BRO => js "SF Tech Bro"
  | ANGRY_BOOMER => js "Angry Boomer"
  | PHILOSOPHER => js "Existential Philosopher"
  end.

Inductive YapLength := SHORT | MEDIUM | LONG | EXTREME.

Definition YapLength_value (l : YapLength) : jsstring :=
  match l with
  | SHORT => js "Short (Quick Yap)"
  | MEDIUM => js "Medium (Solid Rant)"
  | LONG => js "Long (Full Manifesto)"
  | EXTREME => js "Extreme (Filibuster)"
  end.

Module YapRequest.
Record t := { topic : jsstring; style : YapStyle; length : YapLength }.
End YapRequest.

Module HistoryItem.
Record t := {
  id : jsstring;
  topic : jsstring;
  content : jsstring;
  style : YapStyle;
  timestamp : Z
}.

(** The object literal built in [handleGenerate]. *)
Definition toJS (i : t) : JSValue :=
  JObj [ (js "id", JStr (id i));
         (js "topic", JStr (topic i));
         (js "content", JStr (content i));
         (js "style", JStr (YapStyle_value (style i)));
         (js "timestamp", numberOfZ (timestamp i)) ].
End HistoryItem.

(** ** The component's state

    The values of the nine [useState] hooks of [App].  [history] is declared
    [HistoryItem[]], but holds whatever [JSON.parse] returned once the load
    effect has run, so it is a JSON value here. *)

Module State.
Record t := {
  topic : jsstring;
  style : YapStyle;
  length : YapLength;
  generatedContent : jsstring;
  isLoading : bool;
  history : JSValue;
  error : option jsstring;
  isRecording : bool;
  isTranscribing : bool
}.
End State.

Definition initialState : State.t :=
  {| State.topic := [];
     State.style := ZOOMER;
     State.length := MEDIUM;
     State.generatedContent := [];
     State.isLoading := false;
     State.history := JArr [];
     State.error := None;
     State.isRecording := false;
     State.isTranscribing := false |}.

Definition setTopic (v : jsstring) (s : State.t) : State.t :=
  {| State.topic := v; State.style := State.style s;
     State.length := State.length s;
     State.generatedContent := State.generatedContent s;
     State.isLoading := State.isLoading s; State.history := State.history s;
     State.error := State.error s; State.isRecording := State.isRecording s;
     State.isTranscribing := State.isTranscribing s |}.

Definition setStyle (v : YapStyle) (s : State.t) : State.t :=
  {| State.topic := State.topic s; State.style := v;
     State.length := State.length s;
     State.generatedContent := State.generatedContent s;
     State.isLoading := State.isLoading s; State.history := State.history s;
     State.error := State.error s; State.isRecording := State.isRecording s;
     State.isTranscribing := State.isTranscribing s |}.

Definition setLength (v : YapLength) (s : State.t) : State.t :=
  {| State.topic := State.topic s; State.style := State.style s;
     State.length := v;
     State.generatedContent := State.generatedContent s;
     State.isLoading := State.isLoading s; State.history := State.history s;
     State.error := State.error s; State.isRecording := State.isRecording s;
     State.isTranscribing := State.isTranscribing s |}.

Definition setGeneratedContent (v : jsstring) (s : State.t) : State.t :=
  {| State.topic := State.topic s; State.style := State.style s;
     State.length := State.length s;
     State.generatedContent := v;
     State.isLoading := State.isLoading s; State.history := State.history s;
     State.error := State.error s; State.isRecording := State.isRecording s;
     State.isTranscribing := State.isTranscribing s |}.

Definition setIsLoading (v : bool) (s : State.t) : State.t :=
  {| State.topic := State.topic s; State.style := State.style s;
     State.length := State.length s;
     State.generatedContent := State.generatedContent s;
     State.isLoading := v; State.history := State.history s;
     State.error := State.error s; State.isRecording := State.isRecording s;
     State.isTranscribing := State.isTranscribing s |}.

Definition setHistory (v : JSValue) (s : State.t) : State.t :=
  {| State.topic := State.topic s; State.style := State.style s;
     State.length := State.length s;
     State.generatedContent := State.generatedContent s;
     State.isLoading := State.isLoading s; State.history := v;
     State.error := State.error s; State.isRecording := State.isRecording s;
     State.isTranscribing := State.isTranscribing s |}.

Definition setError (v : option jsstring) (s : State.t) : State.t :=
  {| State.topic := State.topic s; State.style := State.style s;
     State.length := State.length s;
     State.generatedContent := State.generatedContent s;
     State.isLoading := State.isLoading s; State.history := State.history s;
     State.error := v; State.isRecording := State.isRecording s;
     State.isTranscribing := State.isTranscribing s |}.

Definition setIsRecording (v : bool) (s : State.t) : State.t :=
  {| State.topic := State.topic s; State.style := State.style s;
     State.length := State.length s;
     State.generatedContent := State.generatedContent s;
     State.isLoading := State.isLoading s; State.history := State.history s;
     State.error := State.error s; State.isRecording := v;
     State.isTranscribing := State.isTranscribing s |}.

Definition setIsTranscribing (v : bool) (s : State.t) : State.t :=
  {| State.topic := State.topic s; State.style := State.style s;
     State.length := State.length s;
     State.generatedContent := State.generatedContent s;
     State.isLoading := State.isLoading s; State.history := State.history s;
     State.error := State.error s; State.isRecording := State.isRecording s;
     State.isTranscribing := v |}.

(** ** The world around the component *)

(** A chunk of recorded audio: its bytes. *)
Definition Blob := list N.

(** A [MediaRecorder] with the stream it records: whether it is recording,
    and whether the tracks of its stream are still live. *)
Record Recorder := { capturing : bool; tracksLive : bool }.

Record World := {
  ui : State.t;
  mediaRecorderRef : option nat;        (* index in [recorders] *)
  audioChunksRef : list Blob;
  localStorage : gmap jsstring jsstring;
  console : list jsstring;              (* what [console.error] printed *)
  generateCalls : list YapRequest.t;    (* the calls of [generateYap] *)
  recorders : list Recorder;            (* every recorder created so far *)
  microphoneRequests : nat              (* calls of [getUserMedia] not yet settled *)
}.

Definition onUi (f : State.t -> State.t) (w : World) : World :=
  {| ui := f (ui w); mediaRecorderRef := mediaRecorderRef w;
     audioChunksRef := audioChunksRef w; localStorage := localStorage w;
     console := console w; generateCalls := generateCalls w;
     recorders := recorders w;
     microphoneRequests := microphoneRequests w |}.

Definition withMediaRecorderRef (r : option nat) (w : World) : World :=
  {| ui := ui w; mediaRecorderRef := r;
     audioChunksRef := audioChunksRef w; localStorage := localStorage w;
     console := console w; generateCalls := generateCalls w;
     recorders := recorders w;
     microphoneRequests := microphoneRequests w |}.

Definition withAudioChunksRef (c : list Blob) (w : World) : World :=
  {| ui := ui w; mediaRecorderRef := mediaRecorderRef w;
     audioChunksRef := c; localStorage := localStorage w;
     console := console w; generateCalls := generateCalls w;
     recorders := recorders w;
     microphoneRequests := microphoneRequests w |}.

Definition withLocalStorage (m : gmap jsstring jsstring) (w : World) : World :=
  {| ui := ui w; mediaRecorderRef := mediaRecorderRef w;
     audioChunksRef := audioChunksRef w; localStorage := m;
     console := console w; generateCalls := generateCalls w;
     recorders := recorders w;
     microphoneRequests := microphoneRequests w |}.

Definition withRecorders (r : list Recorder) (w : World) : World :=
  {| ui := ui w; mediaRecorderRef := mediaRecorderRef w;
     audioChunksRef := audioChunksRef w; localStorage := localStorage w;
     console := console w; generateCalls := generateCalls w;
     recorders := r; microphoneRequests := microphoneRequests w |}.

(** [console.error(msg)] *)
Definition console_error (msg : jsstring) (w : World) : World :=
  {| ui := ui w; mediaRecorderRef := mediaRecorderRef w;
     audioChunksRef := audioChunksRef w; localStorage := localStorage w;
     console := console w ++ [msg]; generateCalls := generateCalls w;
     recorders := recorders w;
     microphoneRequests := microphoneRequests w |}.

(** The call [generateYap(topic, style, length)] leaves the component. *)
Definition callGenerateYap (req : YapRequest.t) (w : World) : World :=
  {| ui := ui w; mediaRecorderRef := mediaRecorderRef w;
     audioChunksRef := audioChunksRef w; localStorage := localStorage w;
     console := console w; generateCalls := generateCalls w ++ [req];
     recorders := recorders w;
     microphoneRequests := microphoneRequests w |}.

Definition localStorage_getItem (k : jsstring) (w : World) : option jsstring :=
  localStorage w !! k.
Definition localStorage_setItem (k v : jsstring) (w : World) : World :=
  withLocalStorage (<[k := v]> (localStorage w)) w.
Definition localStorage_removeItem (k : jsstring) (w : World) : World :=
  withLocalStorage (delete k (localStorage w)) w.

(** ** The history cache *)

Definition yap_history : jsstring := js "yap_history".

(** The load effect (run once, on mount).  It returns the value handed to
    [setHistory], which React applies in the next render: [None] when
    [setHistory] is not called. *)
Definition loadHistoryEffect (w : World) : World * option JSValue :=
  match localStorage_getItem yap_history w with
  | Some saved =>
      if truthy saved then
        match JSON_parse saved with
        | Some v => (w, Some v)
        | None => (console_error (js "Failed to parse history") w, None)
        end
      else (w, None)
  | None => (w, None)
  end.

(** The save effect: it depends on [history], so it runs after the first
    render and after every render in which [history] is a new value. *)
Definition saveHistoryEffect (w : World) : World :=
  localStorage_setItem yap_history (JSON_stringify (State.history (ui w))) w.

(** The component is mounted on a browser whose storage is [storage]: the
    first render has the initial state, then both effects run in the order
    of the source, then the render after the queued [setHistory] runs the
    save effect again. *)
Definition mount (storage : gmap jsstring jsstring) : World :=
  let w0 := {| ui := initialState; mediaRecorderRef := None;
               audioChunksRef := []; localStorage := storage;
               console := []; generateCalls := []; recorders := [];
               microphoneRequests := 0 |} in
  let (w1, queued) := loadHistoryEffect w0 in
  let w2 := saveHistoryEffect w1 in
  match queued with
  | Some v => saveHistoryEffect (onUi (setHistory v) w2)
  | None => w2
  end.

(** The code points of a string, as the strings a spread yields: a
    surrogate pair is one element. *)
Fixpoint codePoints (s : jsstring) : list jsstring :=
  match s with
  | [] => []
  | c :: rest =>
      match rest with
      | d :: rest' =>
          if isHighSurrogate c && isLowSurrogate d
          then [c; d] :: codePoints rest'
          else [c] :: codePoints rest
      | [] => [[c]]
      end
  end.

(** [...prev]: the elements of an array, the code points of a string, and a
    [TypeError] ([None]) for a value that is not iterable. *)
Definition spread (prev : JSValue) : option (list JSValue) :=
  match prev with
  | JArr elems => Some elems
  | JStr s => Some (List.map JStr (codePoints s))
  | _ => None
  end.

(** The updater [prev => [newItem, ...prev].slice(0, 10)]. *)
Definition recordHistory (newItem prev : JSValue) : option JSValue :=
  match spread prev with
  | Some elems => Some (JArr (take 10 (newItem :: elems)))
  | None => None
  end.

(** ** Generate *)

(** [handleGenerate] up to its [await]: the validation, the three setters
    and the call.  The second component is the request whose answer the
    handler now waits for, with the [topic], [style] and [length] of the
    render the handler belongs to. *)
Definition handleGenerate_begin (w : World) : World * option YapRequest.t :=
  let s := ui w in
  if negb (truthy (trim (State.topic s))) then
    (onUi (setError (Some (js "Please enter a topic to yap about."))) w, None)
  else
    let w := onUi (setError None) w in
    let w := onUi (setIsLoading true) w in
    let w := onUi (setGeneratedContent []) w in
    let req := {| YapRequest.topic := State.topic s;
                  YapRequest.style := State.style s;
                  YapRequest.length := State.length s |} in
    (callGenerateYap req w, Some req).

(** [handleGenerate] from the moment the call settles: [result] is the text
    the call resolved with, or [None] if it was rejected; [uuid] and [now]
    are what [crypto.randomUUID()] and [Date.now()] return.  The updater of
    [setHistory] runs in the next render, which is followed by the save
    effect; if the updater throws there, no handler catches it and React
    unmounts the component: [None]. *)
Definition handleGenerate_settle (req : YapRequest.t) (result : option jsstring)
    (uuid : jsstring) (now : Z) (w : World) : option World :=
  match result with
  | Some result =>
      let w := onUi (setGeneratedContent result) w in
      let newItem := {| HistoryItem.id := uuid;
                        HistoryItem.topic := YapRequest.topic req;
                        HistoryItem.content := result;
                        HistoryItem.style := YapRequest.style req;
                        HistoryItem.timestamp := now |} in
      (* [finally] runs before the render that applies the updater *)
      let w := onUi (setIsLoading false) w in
      match recordHistory (HistoryItem.toJS newItem) (State.history (ui w)) with
      | Some h => Some (saveHistoryEffect (onUi (setHistory h) w))
      | None => None
      end
  | None =>
      let w := onUi (setError (Some (js "Failed to generate yap. Please try again."))) w in
      Some (onUi (setIsLoading false) w)
  end.

(** One whole invocation of [handleGenerate], nothing else happening while
    it waits. *)
Definition handleGenerate (result : option jsstring) (uuid : jsstring) (now : Z)
    (w : World) : option World :=
  match handleGenerate_begin w with
  | (w', Some req) => handleGenerate_settle req result uuid now w'
  | (w', None) => Some w'
  end.

(** [handleKeyDown]: Enter with the command key held starts a generation. *)
Definition handleKeyDown (key : jsstring) (metaKey : bool) (w : World)
    : World * option YapRequest.t :=
  if jsstring_eqb key (js "Enter") && metaKey then handleGenerate_begin w
  else (w, None).

(** ** Clear and select *)

(** The handler itself. *)
Definition handleClearHistory (w : World) : World :=
  let w := onUi (setHistory (JArr [])) w in
  localStorage_removeItem yap_history w.

(** The handler and the render it causes: [setHistory] was given a new
    array, so the save effect runs. *)
Definition clearHistory (w : World) : World :=
  saveHistoryEffect (handleClearHistory w).

Definition handleSelectHistory (item : HistoryItem.t) (w : World) : World :=
  let w := onUi (setTopic (HistoryItem.topic item)) w in
  let w := onUi (setStyle (HistoryItem.style item)) w in
  onUi (setGeneratedContent (HistoryItem.content item)) w.

(** ** The recording session *)

(** What [getUserMedia] (and the construction of the recorder) gives:
    a stream, or an exception. *)
Inductive Microphone := Granted | Refused (err : jsstring).

Definition withMicrophoneRequests (n : nat) (w : World) : World :=
  {| ui := ui w; mediaRecorderRef := mediaRecorderRef w;
     audioChunksRef := audioChunksRef w; localStorage := localStorage w;
     console := console w; generateCalls := generateCalls w;
     recorders := recorders w; microphoneRequests := n |}.

(** [startRecording] up to its [await]: [getUserMedia] is called, nothing
    else happens. *)
Definition startRecording_begin (w : World) : World :=
  withMicrophoneRequests (S (microphoneRequests w)) w.

(** [startRecording] from the moment [getUserMedia] settles. *)
Definition startRecording_settle (mic : Microphone) (w : World) : World :=
  let w := withMicrophoneRequests (pred (microphoneRequests w)) w in
  match mic with
  | Granted =>
      let mediaRecorder := List.length (recorders w) in
      let w := withMediaRecorderRef (Some mediaRecorder) w in
      let w := withAudioChunksRef [] w in
      let w := withRecorders
                 (recorders w ++ [{| capturing := true; tracksLive := true |}]) w in
      let w := onUi (setIsRecording true) w in
      onUi (setError None) w
  | Refused err =>
      let w := console_error err w in
      onUi (setError (Some (js "Microphone access denied or not supported."))) w
  end.

Definition stopCapture (r : Recorder) : Recorder :=
  {| capturing := false; tracksLive := tracksLive r |}.
Definition stopTracks (r : Recorder) : Recorder :=
  {| capturing := capturing r; tracksLive := false |}.

Definition stopRecording (w : World) : World :=
  match mediaRecorderRef w with
  | Some mediaRecorder =>
      if State.isRecording (ui w) then
        let w := withRecorders (alter stopCapture mediaRecorder (recorders w)) w in
        onUi (setIsRecording false) w
      else w
  | None => w
  end.

(** [mediaRecorder.ondataavailable] *)
Definition ondataavailable (data : Blob) (w : World) : World :=
  if (0 <? List.length data)%nat
  then withAudioChunksRef (audioChunksRef w ++ [data]) w
  else w.

(** [mediaRecorder.onstop] up to its first [await]. *)
Definition onstop_begin (w : World) : World :=
  onUi (setIsTranscribing true) w.

(** The updater [prev => ...] of [setTopic] in [onstop]. *)
Definition appendTranscript (text prev : jsstring) : jsstring :=
  let trimmed := trim prev in
  if truthy trimmed then trimmed ++ js " " ++ text else text.

(** [mediaRecorder.onstop] of recorder [mediaRecorder], from the moment the
    transcription settles: [text] is what [transcribeAudio] resolved with,
    or [None] if it (or the encoding of the audio) was rejected. *)
Definition onstop_settle (mediaRecorder : nat) (text : option jsstring)
    (w : World) : World :=
  let w :=
    match text with
    | Some text =>
        if truthy text
        then onUi (fun s => setTopic (appendTranscript text (State.topic s)) s) w
        else w
    | None =>
        onUi (setError (Some (js "Failed to transcribe audio. Please try again."))) w
    end in
  let w := onUi (setIsTranscribing false) w in
  withRecorders (alter stopTracks mediaRecorder (recorders w)) w.

(** The record button: [disabled] while transcribing, otherwise
    [onClick={isRecording ? stopRecording : startRecording}]. *)
Definition recordButton_onClick (w : World) : World :=
  if State.isTranscribing (ui w) then w
  else if State.isRecording (ui w) then stopRecording w
  else startRecording_begin w.

(** The recorders that are recording. *)
Definition activeCaptures (w : World) : nat :=
  List.length (List.filter capturing (recorders w)).

(** ** The component as a state machine

    What can happen to a mounted component: the user acts on a control, or
    something the component waits for settles.  [step] admits a settled
    generation or transcription that was never requested, so its runs
    include every run of the component. *)

Inductive Event :=
| TopicInput (value : jsstring)            (* the textarea's onChange *)
| StyleSelect (s : YapStyle)
| LengthSelect (l : YapLength)
| GenerateClick                            (* the button, disabled while loading *)
| KeyDown (key : jsstring) (metaKey : bool)
| Regenerate                               (* OutputDisplay's onRegenerate *)
| GenerateSettled (req : YapRequest.t) (result : option jsstring)
    (uuid : jsstring) (now : Z)
| ClearClick
| SelectClick (item : HistoryItem.t)
| RecordClick
| MicrophoneSettled (mic : Microphone)
| DataAvailable (data : Blob)
| RecorderStopped
| TranscriptionSettled (mediaRecorder : nat) (text : option jsstring).

Definition step (w : World) (e : Event) : option World :=
  match e with
  | TopicInput value => Some (onUi (setTopic value) w)
  | StyleSelect s => Some (onUi (setStyle s) w)
  | LengthSelect l => Some (onUi (setLength l) w)
  | GenerateClick =>
      if State.isLoading (ui w) then Some w else Some (handleGenerate_begin w).1
  | KeyDown key metaKey => Some (handleKeyDown key metaKey w).1
  | Regenerate => Some (handleGenerate_begin w).1
  | GenerateSettled req result uuid now =>
      handleGenerate_settle req result uuid now w
  | ClearClick => Some (clearHistory w)
  | SelectClick item => Some (handleSelectHistory item w)
  | RecordClick => Some (recordButton_onClick w)
  | MicrophoneSettled mic =>
      if (0 <? microphoneRequests w)%nat
      then Some (startRecording_settle mic w) else Some w
  | DataAvailable data => Some (ondataavailable data w)
  | RecorderStopped => Some (onstop_begin w)
  | TranscriptionSettled mediaRecorder text =>
      Some (onstop_settle mediaRecorder text w)
  end.

Fixpoint run (w : World) (es : list Event) : option World :=
  match es with
  | [] => Some w
  | e :: es' =>
      match step w e with
      | Some w' => run w' es'
      | None => None
      end
  end.

(** The history cache holds a sequence of at most ten entries. *)
Definition withinCapacity (h : JSValue) : Prop :=
  exists items, h = JArr items /\ (List.length items <= 10)%nat.

(** What is stored under the history key is missing, is not JSON, or is a
    sequence of at most ten entries. *)
Definition storedWithinCapacity (storage : gmap jsstring jsstring) : bool :=
  match storage !! yap_history with
  | Some saved =>
      match JSON_parse saved with
      | Some (JArr items) => (List.length items <=? 10)%nat
      | Some _ => false
      | None => true
      end
  | None => true
  end.

(** Recording [items] one after the other, the first one first. *)
Fixpoint recordAll (items : list JSValue) (h : JSValue) : option JSValue :=
  match items with
  | [] => Some h
  | item :: items' =>
      match recordHistory item h with
      | Some h' => recordAll items' h'
      | None => None
      end
  end.

(** The request [handleGenerate] makes in world [w]. *)
Definition requestOf (w : World) : YapRequest.t :=
  {| YapRequest.topic := State.topic (ui w);
     YapRequest.style := State.style (ui w);
     YapRequest.length := State.length (ui w) |}.

(** The history item [handleGenerate] builds for request [req]. *)
Definition newItemOf (req : YapRequest.t) (result uuid : jsstring) (now : Z)
    : HistoryItem.t :=
  {| HistoryItem.id := uuid;
     HistoryItem.topic := YapRequest.topic req;
     HistoryItem.content := result;
     HistoryItem.style := YapRequest.style req;
     HistoryItem.timestamp := now |}.

(** ** Concrete worlds used below *)

Definition storageWith (saved : jsstring) : gmap jsstring jsstring :=
  {[ yap_history := saved ]}.

(** [s] between double quotes. *)
Definition quoted (s : string) : jsstring := 34 :: js s ++ [34].

(** The text of one history item. *)
Definition sampleItemText : jsstring :=
  js "{" ++ quoted "id" ++ js ":" ++ quoted "a" ++ js ","
  ++ quoted "topic" ++ js ":" ++ quoted "t" ++ js ","
  ++ quoted "content" ++ js ":" ++ quoted "c" ++ js ","
  ++ quoted "style" ++ js ":" ++ quoted "Pirate" ++ js ","
  ++ quoted "timestamp" ++ js ":1}".

Definition sampleItem : JSValue :=
  JObj [ (js "id", JStr (js "a")); (js "topic", JStr (js "t"));
         (js "content", JStr (js "c")); (js "style", JStr (js "Pirate"));
         (js "timestamp", JNum 1 0) ].

(** A stored history of [n] entries, as text. *)
Definition storedItems (n : nat) : jsstring :=
  js "[" ++ joinWith (js ",") (repeat sampleItemText n) ++ js "]".

(** A freshly mounted component (empty storage) whose topic is [topic]. *)
Definition typed (topic : jsstring) : World :=
  onUi (setTopic topic) (mount ∅).

(** Two clicks on the record button before the microphone answers, then the
    first answer. *)
Definition recordingAfterDoubleClick : World :=
  startRecording_settle Granted
    (recordButton_onClick (recordButton_onClick (mount ∅))).

(** ** Splitting a string

    [s.split(sep)] for a separator of one code unit: the pieces between the
    separators, at least one. *)
Fixpoint splitOn (sep : N) (s : jsstring) : list jsstring :=
  match s with
  | [] => [[]]
  | c :: s' =>
      if c =? sep then [] :: splitOn sep s'
      else
        match splitOn sep s' with
        | piece :: pieces => (c :: piece) :: pieces
        | [] => [[c]]
        end
  end.

(** [result.split(',')[1]] in [blobToBase64]: what the promise resolves
    with, [None] for [undefined]. *)
Definition blobToBase64_result (result : jsstring) : option jsstring :=
  splitOn (ch ",") result !! 1%nat.

(** [l.split(' ')[0]], the text of a length button. *)
Definition lengthLabel (l : YapLength) : jsstring :=
  default [] (splitOn 32 (YapLength_value l) !! 0%nat).

(** A whole recording session on an idle component: the record button is
    clicked, the microphone is granted, one chunk of audio arrives, the
    button is clicked again, the recorder stops and the transcription
    settles with [text]. *)
Definition session (data : Blob) (text : option jsstring) (w : World) : list Event :=
  [RecordClick; MicrophoneSettled Granted; DataAvailable data; RecordClick;
   RecorderStopped; TranscriptionSettled (List.length (recorders w)) text].

(** ** Values that survive a save and a load *)

(** A number as [decimal] leaves it: zero is [0e0], and the decimal digits
    of another mantissa do not end in 0. *)
Definition canonical (m e : Z) : bool :=
  if (m =? 0)%Z then (e =? 0)%Z
  else negb (List.last (digitsOf (Z.abs_N m)) 0 =? 0).

(** No key occurs twice. *)
Fixpoint distinctKeys (keys : list jsstring) : bool :=
  match keys with
  | [] => true
  | k :: keys' => negb (existsb (jsstring_eqb k) keys') && distinctKeys keys'
  end.

(** The values [JSON.stringify] writes so that [JSON.parse] reads them
    back: every number is canonical and no object has a key twice. *)
Fixpoint storable (v : JSValue) : bool :=
  match v with
  | JNum m e => canonical m e
  | JArr elems => forallb storable elems
  | JObj members =>
      forallb (fun kv => storable kv.2) members && distinctKeys (List.map fst members)
  | _ => true
  end.

(** Token lists joined by commas. *)
Fixpoint joinTokens (parts : list (list Token)) : list Token :=
  match parts with
  | [] => []
  | [p] => p
  | p :: parts' => p ++ TComma :: joinTokens parts'
  end.

(** The tokens of the text [JSON.stringify] writes for a value. *)
Fixpoint tokensOf (v : JSValue) : list Token :=
  match v with
  | JArr elems => TLBracket :: joinTokens (List.map tokensOf elems) ++ [TRBracket]
  | JObj members =>
      TLBrace
      :: joinTokens
           (List.map (fun kv => TScalar (JStr kv.1) :: TColon :: tokensOf kv.2) members)
      ++ [TRBrace]
  | _ => [TScalar v]
  end.

(** The digits of a decimal numeral from their values. *)
Fixpoint uintOfDigits (ds : list N) : Decimal.uint :=
  match ds with
  | [] => Decimal.Nil
  | d :: ds' =>
      let rest := uintOfDigits ds' in
      match d with
      | 0 => Decimal.D0 rest
      | 1 => Decimal.D1 rest
      | 2 => Decimal.D2 rest
      | 3 => Decimal.D3 rest
      | 4 => Decimal.D4 rest
      | 5 => Decimal.D5 rest
      | 6 => Decimal.D6 rest
      | 7 => Decimal.D7 rest
      | 8 => Decimal.D8 rest
      | _ => Decimal.D9 rest
      end
  end.

(** What may follow a value in a JSON text: nothing, a comma, or the end
    of an array or object. *)
Definition closes (rest : jsstring) : bool :=
  match rest with
  | [] => true
  | c :: _ => (c =? ch ",") || (c =? ch "]") || (c =? ch "}")
  end.

(** The sign of a number's text. *)
Definition signText (negative : bool) : jsstring :=
  if negative then [ch "-"] else [].

(** An integer part is a single digit or does not start with 0. *)
Definition intPart (int : list N) : Prop :=
  Forall (fun d => d < 10) int
  /\ exists x rest, int = x :: rest /\ (rest = [] \/ x <> 0).

(** A text is read as these tokens wherever a value may end after it. *)
Definition lexesAs (text : jsstring) (tokens : list Token) : Prop :=
  forall rest, closes rest = true ->
    lex LBetween (text ++ rest) = option_map (app tokens) (lex LBetween rest).

(** The states in which a value may start. *)
Definition startsValue (expect : Expect) : Prop :=
  expect = EValue \/ expect = EValueOrClose.

(** These tokens are read as a value, wherever a value may start. *)
Definition parsesAs (tokens : list Token) (v : JSValue) : Prop :=
  forall expect stack ts, startsValue expect ->
    parseTokens (expect, stack) (tokens ++ ts) = parseTokens (complete v stack) ts.

(** What the parser holds while it reads is storable: a token, the
    members of an open object, an open array or object, a parser state. *)
Definition tokenStorable (t : Token) : Prop :=
  match t with
  | TScalar v => storable v = true
  | _ => True
  end.

Definition membersStorable (ms : list (jsstring * JSValue)) : bool :=
  forallb (fun kv => storable kv.2) ms.

Definition frameStorable (f : Frame) : Prop :=
  match f with
  | FArr seen => forallb storable seen = true
  | FObj seen _ => membersStorable seen = true
  end.

Definition stateStorable (st : ParseState) : Prop :=
  Forall frameStorable st.2
  /\ match st.1 with EDone v => storable v = true | _ => True end.

(** The texts the component can show in its error banner. *)
Definition errorMessages : list jsstring :=
  [ js "Please enter a topic to yap about.";
    js "Failed to generate yap. Please try again.";
    js "Failed to transcribe audio. Please try again.";
    js "Microphone access denied or not supported." ].

(** The banner is hidden or shows one of these texts. *)
Definition knownError (error : option jsstring) : Prop :=
  match error with
  | None => True
  | Some msg => In msg errorMessages
  end.

(** ** Histories of items

    [Date.now()] returns a time value: an integer of at most 8.64e15 in
    absolute value (ECMAScript, Time Values and Time Range).  Such a number
    is below 2^53, and is written to the storage with all its digits. *)
Definition timeValue (now : Z) : bool := (Z.abs now <=? 8640000000000000)%Z.

(** The events whose clock reading is a time value. *)
Definition plausible (e : Event) : bool :=
  match e with
  | GenerateSettled _ _ _ now => timeValue now
  | _ => true
  end.

(** [h] is the sequence of the items [items], as [handleGenerate] builds
    them. *)
Definition itemsOf (h : JSValue) (items : list HistoryItem.t) : Prop :=
  h = JArr (List.map HistoryItem.toJS items)
  /\ forallb (fun i => timeValue (HistoryItem.timestamp i)) items = true.

(** The storage has no history entry, or one that holds the text of a
    sequence of items: what the save effect writes. *)
Definition holdsItems (storage : gmap jsstring jsstring) : Prop :=
  match storage !! yap_history with
  | None => True
  | Some saved => exists h items, itemsOf h items /\ saved = JSON_stringify h
  end.

(** * Properties *)

(** ** Loading the history cache *)

Section Load.
Variable storage : gmap jsstring jsstring.

(** What the component holds as its history once mounted. *)
Lemma mount_history :
  State.history (ui (mount storage)) =
    match storage !! yap_history with
    | Some saved =>
        match JSON_parse saved with
        | Some v => if truthy saved then v else JArr []
        | None => JArr []
        end
    | None => JArr []
    end.
Proof.
  unfold mount, loadHistoryEffect, localStorage_getItem; simpl.
  destruct (storage !! yap_history) as [saved|]; [|reflexivity].
  destruct (truthy saved), (JSON_parse saved); reflexivity.
Qed.

(** What mounting prints on the console. *)
Lemma mount_console :
  console (mount storage) =
    match storage !! yap_history with
    | Some saved =>
        match JSON_parse saved with
        | None => if truthy saved then [js "Failed to parse history"] else []
        | Some _ => []
        end
    | None => []
    end.
Proof.
  unfold mount, loadHistoryEffect, localStorage_getItem; simpl.
  destruct (storage !! yap_history) as [saved|]; [|reflexivity].
  destruct (truthy saved), (JSON_parse saved); reflexivity.
Qed.

(** After mounting, the storage holds the history the component holds. *)
Lemma mount_storage :
  localStorage (mount storage) !! yap_history =
    Some (JSON_stringify (State.history (ui (mount storage)))).
Proof.
  unfold mount, loadHistoryEffect, localStorage_getItem; simpl.
  destruct (storage !! yap_history) as [saved|];
    [destruct (truthy saved), (JSON_parse saved)|];
    simpl; apply lookup_insert_eq.
Qed.
End Load.

(** The empty string is not JSON. *)
Lemma JSON_parse_empty : JSON_parse [] = None.
Proof. reflexivity. Qed.




(** ** Clearing the history cache *)

(** What a clear leaves in the storage: the handler removes the entry, and
    the save effect of the render it causes writes the text of the empty
    array. *)
Lemma handleClearHistory_storage (w : World) :
  localStorage (handleClearHistory w) !! yap_history = None.
Proof. apply lookup_delete_eq. Qed.

Lemma clearHistory_storage (w : World) :
  localStorage (clearHistory w) !! yap_history = Some (js "[]").
Proof. apply lookup_insert_eq. Qed.

(** C4: the code at the claim.  A clear empties the history held by the
    component and its handler removes the storage entry, but the save
    effect of the render caused by the clear writes the entry again: once
    the clear is complete the storage holds the text of the empty array
    under the history key, where the claim has no entry. *)
Theorem clear_history_entry_rewritten (w : World) :
  State.history (ui (clearHistory w)) = JArr []
  /\ localStorage (handleClearHistory w) !! yap_history = None
  /\ localStorage (clearHistory w) !! yap_history = Some (js "[]")
  /\ localStorage (clearHistory w) !! yap_history <> None.
Proof.
  split; [reflexivity|].
  split; [apply handleClearHistory_storage|].
  rewrite clearHistory_storage. split; [reflexivity | discriminate].
Qed.

(** C9: whatever the component and the storage held, a component mounted on
    the storage left by a clear has the empty sequence as its history; this
    holds of the storage as the handler leaves it and of the storage after
    the render that follows. *)
Theorem clear_then_load_is_empty (w : World) :
  State.history (ui (mount (localStorage (handleClearHistory w)))) = JArr []
  /\ State.history (ui (mount (localStorage (clearHistory w)))) = JArr [].
Proof.
  rewrite !mount_history, handleClearHistory_storage, clearHistory_storage.
  split; reflexivity.
Qed.

(** ** Generate *)

Lemma truthy_true (s : jsstring) : truthy s = true <-> s <> [].
Proof. destruct s; simpl; split; congruence. Qed.

Lemma truthy_false (s : jsstring) : truthy s = false <-> s = [].
Proof. destruct s; simpl; split; congruence. Qed.

(** With a topic that is not blank, [handleGenerate] sets its three flags
    and issues the call. *)
Lemma handleGenerate_begin_topic (w : World) :
  trim (State.topic (ui w)) <> [] ->
  handleGenerate_begin w =
    (callGenerateYap (requestOf w)
       (onUi (setGeneratedContent [])
          (onUi (setIsLoading true) (onUi (setError None) w))),
     Some (requestOf w)).
Proof.
  intros H%truthy_true. unfold handleGenerate_begin. rewrite H. reflexivity.
Qed.

(** With a blank topic it only sets the validation message. *)
Lemma handleGenerate_begin_blank (w : World) :
  trim (State.topic (ui w)) = [] ->
  handleGenerate_begin w =
    (onUi (setError (Some (js "Please enter a topic to yap about."))) w, None).
Proof.
  intros H%truthy_false. unfold handleGenerate_begin. rewrite H. reflexivity.
Qed.

(** Nothing is called once the generation has settled. *)
Lemma handleGenerate_settle_calls req result uuid now (w w' : World) :
  handleGenerate_settle req result uuid now w = Some w' ->
  generateCalls w' = generateCalls w.
Proof.
  unfold handleGenerate_settle. destruct result as [r|]; simpl.
  - destruct (recordHistory _ _); intros [= <-]; reflexivity.
  - intros [= <-]; reflexivity.
Qed.

(** C2: with a topic that is not empty after trimming, Generate issues
    exactly one generation call, made of the topic, the style and the
    length; with an empty or blank topic it issues none and sets the
    validation message. *)
Theorem generate_calls_once_iff_topic (w : World) (result : option jsstring)
    (uuid : jsstring) (now : Z) :
  (trim (State.topic (ui w)) <> [] ->
   exists w1,
     handleGenerate_begin w = (w1, Some (requestOf w))
     /\ generateCalls w1 = generateCalls w ++ [requestOf w]
     /\ forall w2, handleGenerate result uuid now w = Some w2 ->
                   generateCalls w2 = generateCalls w ++ [requestOf w])
  /\ (trim (State.topic (ui w)) = [] ->
      exists w1,
        handleGenerate result uuid now w = Some w1
        /\ generateCalls w1 = generateCalls w
        /\ State.error (ui w1) = Some (js "Please enter a topic to yap about.")).
Proof.
  split; intros H.
  - eexists. split; [apply handleGenerate_begin_topic, H|].
    split; [reflexivity|].
    intros w2. unfold handleGenerate.
    rewrite (handleGenerate_begin_topic w H).
    intros Hsettle%handleGenerate_settle_calls. exact Hsettle.
  - eexists. unfold handleGenerate.
    rewrite (handleGenerate_begin_blank w H). repeat split.
Qed.

Lemma generate_calls_once_iff_topic_witness :
  (exists w1,
     handleGenerate_begin (typed (js "cargo shorts")) =
       (w1, Some (requestOf (typed (js "cargo shorts"))))
     /\ generateCalls w1 = [] ++ [requestOf (typed (js "cargo shorts"))]
     /\ forall w2,
          handleGenerate (Some (js "yap")) (js "u1") 1 (typed (js "cargo shorts")) = Some w2 ->
          generateCalls w2 = [] ++ [requestOf (typed (js "cargo shorts"))])
  /\ (exists w1,
        handleGenerate (Some (js "yap")) (js "u1") 1 (typed (js "   ")) = Some w1
        /\ generateCalls w1 = []
        /\ State.error (ui w1) = Some (js "Please enter a topic to yap about.")).
Proof.
  split.
  - apply (proj1 (generate_calls_once_iff_topic (typed (js "cargo shorts"))
                    (Some (js "yap")) (js "u1") 1)).
    vm_compute. discriminate.
  - apply (proj2 (generate_calls_once_iff_topic (typed (js "   "))
                    (Some (js "yap")) (js "u1") 1)).
    vm_compute. reflexivity.
Defined.

(** C3 fails as stated: nothing stops what happens while the call is
    pending.  With a second Generate (by the keyboard) that succeeds before
    the first one fails, the failed invocation ends with the content "r2"
    displayed and an item in the history that was empty before it; with a
    history entry selected while the call is pending, it ends with the
    content of that entry displayed. *)
Lemma generate_failure_after_overlap :
  (exists w,
     run (mount ∅)
       [TopicInput (js "cats"); KeyDown (js "Enter") true; KeyDown (js "Enter") true;
        GenerateSettled (requestOf (typed (js "cats"))) (Some (js "r2")) (js "u2") 2;
        GenerateSettled (requestOf (typed (js "cats"))) None (js "u1") 1] = Some w
     /\ State.generatedContent (ui w) = js "r2"
     /\ State.generatedContent (ui w) <> []
     /\ State.error (ui w) = Some (js "Failed to generate yap. Please try again.")
     /\ State.history (ui w) <> State.history (ui (typed (js "cats"))))
  /\ (exists w,
        run (mount ∅)
          [TopicInput (js "cats"); GenerateClick;
           SelectClick (newItemOf (requestOf (typed (js "dogs"))) (js "old") (js "u0") 0);
           GenerateSettled (requestOf (typed (js "cats"))) None (js "u1") 1] = Some w
        /\ State.generatedContent (ui w) = js "old"
        /\ State.generatedContent (ui w) <> []).
Proof.
  split; eexists; (split; [vm_compute; reflexivity|]).
  - split; [vm_compute; reflexivity|]. split; [vm_compute; discriminate|].
    split; [vm_compute; reflexivity|]. vm_compute. discriminate.
  - split; [vm_compute; reflexivity|]. vm_compute. discriminate.
Qed.

(** C3, as amended: when the generation call of a Generate invocation
    fails, the error becomes the fixed failure message and the loading flag
    goes off, and the displayed content and the history (in the component and
    in the storage) are left as they are at that moment, whatever happened
    since the call was made ([w1] is the world the failure arrives in).  If
    nothing happened in between, the displayed content is therefore empty and
    the history is what it was before the invocation. *)
Theorem generate_failure_state (w w1 : World) (req : YapRequest.t)
    (uuid : jsstring) (now : Z) :
  (exists w',
     handleGenerate_settle req None uuid now w1 = Some w'
     /\ State.error (ui w') = Some (js "Failed to generate yap. Please try again.")
     /\ State.isLoading (ui w') = false
     /\ State.generatedContent (ui w') = State.generatedContent (ui w1)
     /\ State.history (ui w') = State.history (ui w1)
     /\ localStorage w' = localStorage w1)
  /\ (trim (State.topic (ui w)) <> [] ->
      exists w',
        handleGenerate None uuid now w = Some w'
        /\ State.generatedContent (ui w') = []
        /\ State.error (ui w') = Some (js "Failed to generate yap. Please try again.")
        /\ State.isLoading (ui w') = false
        /\ State.history (ui w') = State.history (ui w)
        /\ localStorage w' = localStorage w).
Proof.
  split.
  - eexists. split; [reflexivity|]. repeat split.
  - intros H. eexists. unfold handleGenerate.
    rewrite (handleGenerate_begin_topic w H). simpl. repeat split.
Qed.

Lemma generate_failure_state_witness :
  exists w',
    handleGenerate None (js "u1") 1 (typed (js "cargo shorts")) = Some w'
    /\ State.generatedContent (ui w') = []
    /\ State.error (ui w') = Some (js "Failed to generate yap. Please try again.")
    /\ State.isLoading (ui w') = false
    /\ State.history (ui w') = State.history (ui (typed (js "cargo shorts")))
    /\ localStorage w' = localStorage (typed (js "cargo shorts")).
Proof.
  apply (proj2 (generate_failure_state (typed (js "cargo shorts"))
                  (typed (js "cargo shorts"))
                  (requestOf (typed (js "cargo shorts"))) (js "u1") 1)).
  vm_compute. discriminate.
Defined.

(** C5 fails as stated: Generate trims the topic only to test it.  With the
    topic " cats " the call receives " cats " and the new history item
    stores " cats ", blanks included. *)
Lemma generate_topic_not_trimmed :
  trim (js " cats ") = js "cats"
  /\ exists w',
       handleGenerate (Some (js "yap")) (js "u1") 1 (typed (js " cats ")) = Some w'
       /\ List.map YapRequest.topic (generateCalls w') = [js " cats "]
       /\ State.history (ui w') =
            JArr [HistoryItem.toJS
                    {| HistoryItem.id := js "u1";
                       HistoryItem.topic := js " cats ";
                       HistoryItem.content := js "yap";
                       HistoryItem.style := ZOOMER;
                       HistoryItem.timestamp := 1 |}]
       /\ js " cats " <> trim (js " cats ").
Proof.
  split; [vm_compute; reflexivity|].
  eexists. split; [vm_compute; reflexivity|].
  split; [vm_compute; reflexivity|].
  split; [vm_compute; reflexivity|].
  vm_compute. discriminate.
Qed.

(** C5, as amended: the topic of every generation request Generate makes is
    the topic text as entered, which is not empty after trimming; this same
    text, untrimmed, is the topic of the history item recorded when the
    call succeeds. *)
Theorem generate_request_topic_as_entered (w w1 : World) (req : YapRequest.t) :
  handleGenerate_begin w = (w1, Some req) ->
  YapRequest.topic req = State.topic (ui w)
  /\ trim (YapRequest.topic req) <> []
  /\ generateCalls w1 = generateCalls w ++ [req]
  /\ forall result uuid now w2,
       handleGenerate_settle req (Some result) uuid now w1 = Some w2 ->
       exists rest,
         State.history (ui w2) =
           JArr (HistoryItem.toJS
                   {| HistoryItem.id := uuid;
                      HistoryItem.topic := State.topic (ui w);
                      HistoryItem.content := result;
                      HistoryItem.style := State.style (ui w);
                      HistoryItem.timestamp := now |} :: rest).
Proof.
  unfold handleGenerate_begin.
  destruct (truthy (trim (State.topic (ui w)))) eqn:Htopic; simpl; [|discriminate].
  intros [= <- <-]. simpl.
  split; [reflexivity|]. split; [apply truthy_true, Htopic|].
  split; [reflexivity|].
  intros result uuid now w2. unfold handleGenerate_settle, recordHistory. simpl.
  destruct (spread (State.history (ui w))) as [elems|]; [|discriminate].
  intros [= <-]. exists (take 9 elems). reflexivity.
Qed.

Lemma generate_request_topic_as_entered_witness :
  YapRequest.topic (requestOf (typed (js " cats "))) = js " cats "
  /\ trim (YapRequest.topic (requestOf (typed (js " cats ")))) <> [].
Proof.
  pose proof (generate_request_topic_as_entered (typed (js " cats "))
                (handleGenerate_begin (typed (js " cats "))).1
                (requestOf (typed (js " cats ")))) as H.
  destruct H as (Htopic & Htrim & _); [vm_compute; reflexivity|].
  split; [exact Htopic | exact Htrim].
Defined.

(** ** The recording session *)

(** C10: when the transcription resolves with the empty string the topic
    is left as it is, whether it is empty or not. *)
Theorem empty_transcript_keeps_topic (mediaRecorder : nat) (w : World) :
  State.topic (ui (onstop_settle mediaRecorder (Some []) w)) = State.topic (ui w).
Proof. reflexivity. Qed.

(** C7 fails as stated: the topic is trimmed before the transcript is
    joined to it.  The transcript "dogs" after the topic "cats " gives
    "cats dogs", not the topic, a space and the transcript; after the
    non-empty topic of two blanks it gives "dogs" alone. *)
Lemma transcript_joined_to_trimmed_topic :
  State.topic (ui (onstop_settle 0 (Some (js "dogs")) (typed (js "cats ")))) = js "cats dogs"
  /\ State.topic (ui (onstop_settle 0 (Some (js "dogs")) (typed (js "cats "))))
     <> State.topic (ui (typed (js "cats "))) ++ js " " ++ js "dogs"
  /\ State.topic (ui (typed (js "  "))) <> []
  /\ State.topic (ui (onstop_settle 0 (Some (js "dogs")) (typed (js "  ")))) = js "dogs".
Proof.
  split; [vm_compute; reflexivity|].
  split; [vm_compute; discriminate|].
  split; [vm_compute; discriminate|].
  vm_compute; reflexivity.
Qed.

(** C7, as amended: when the transcription resolves with a non-empty text,
    the topic becomes the trimmed topic, a space and the text if the
    trimmed topic is not empty, and the text alone otherwise; when it
    fails, the error message is set and the topic is left as it is. *)
Theorem transcription_settled_topic (mediaRecorder : nat) (w : World) :
  (forall text, text <> [] ->
     (trim (State.topic (ui w)) <> [] ->
      State.topic (ui (onstop_settle mediaRecorder (Some text) w)) =
        trim (State.topic (ui w)) ++ js " " ++ text)
     /\ (trim (State.topic (ui w)) = [] ->
         State.topic (ui (onstop_settle mediaRecorder (Some text) w)) = text))
  /\ State.topic (ui (onstop_settle mediaRecorder None w)) = State.topic (ui w)
  /\ State.error (ui (onstop_settle mediaRecorder None w)) =
       Some (js "Failed to transcribe audio. Please try again.").
Proof.
  split; [|split; reflexivity].
  intros text Htext%truthy_true.
  unfold onstop_settle, appendTranscript. rewrite Htext. simpl.
  split.
  - intros H%truthy_true. rewrite H. reflexivity.
  - intros H. rewrite H. reflexivity.
Qed.

Lemma transcription_settled_topic_witness :
  State.topic (ui (onstop_settle 0 (Some (js "dogs")) (typed (js " cats ")))) =
    trim (js " cats ") ++ js " " ++ js "dogs"
  /\ State.topic (ui (onstop_settle 0 (Some (js "dogs")) (typed (js "  ")))) = js "dogs".
Proof.
  split.
  - apply (proj1 (transcription_settled_topic 0 (typed (js " cats "))) (js "dogs"));
      vm_compute; discriminate.
  - apply (proj1 (transcription_settled_topic 0 (typed (js "  "))) (js "dogs"));
      [vm_compute; discriminate | vm_compute; reflexivity].
Defined.






(** ** The capacity of the history cache *)

Lemma take_app_take {A} (n m : nat) (a b : list A) :
  (n <= m)%nat -> take n (a ++ take m b) = take n (a ++ b).
Proof.
  revert n. induction a as [|x a IH]; intros n Hn; simpl.
  - rewrite take_take. f_equal. lia.
  - destruct n as [|n]; [reflexivity|]. simpl. f_equal. apply IH. lia.
Qed.

Lemma take_removelast {A} (n : nat) (l : list A) :
  List.length l = S n -> take n l = removelast l.
Proof.
  revert n. induction l as [|x l IH]; intros n Hlen; [discriminate|].
  destruct l as [|y l]; simpl in *.
  - assert (n = 0%nat) as -> by lia. reflexivity.
  - destruct n as [|n]; [lia|]. simpl. f_equal. apply IH. lia.
Qed.

(** Recording on a sequence: the new item first, then the nine first of the
    sequence. *)
Lemma recordHistory_array (newItem : JSValue) (items : list JSValue) :
  recordHistory newItem (JArr items) = Some (JArr (take 10 (newItem :: items))).
Proof. reflexivity. Qed.

(** Recording several items on a sequence of at most ten leaves the most
    recent ten, the last recorded first. *)
Lemma recordAll_newest_first (newItems items : list JSValue) :
  (List.length items <= 10)%nat ->
  recordAll newItems (JArr items) = Some (JArr (take 10 (rev newItems ++ items))).
Proof.
  revert items. induction newItems as [|x newItems IH]; intros items Hlen.
  - simpl. rewrite take_ge by lia. reflexivity.
  - change (recordAll (x :: newItems) (JArr items))
      with (recordAll newItems (JArr (take 10 (x :: items)))).
    rewrite IH by (rewrite length_take; lia).
    do 2 f_equal. rewrite take_app_take by lia. simpl.
    rewrite <- app_assoc. reflexivity.
Qed.

(** Only a settled generation and a clear change the history. *)
Lemma handleGenerate_begin_history (w : World) :
  State.history (ui (handleGenerate_begin w).1) = State.history (ui w).
Proof.
  unfold handleGenerate_begin.
  destruct (truthy (trim (State.topic (ui w)))); reflexivity.
Qed.

Lemma stopRecording_history (w : World) :
  State.history (ui (stopRecording w)) = State.history (ui w).
Proof.
  unfold stopRecording.
  destruct (mediaRecorderRef w); [destruct (State.isRecording (ui w))|]; reflexivity.
Qed.

Lemma withinCapacity_take (newItem : JSValue) (items : list JSValue) :
  withinCapacity (JArr (take 10 (newItem :: items))).
Proof. eexists. split; [reflexivity|]. rewrite length_take. lia. Qed.

(** Every step of the component keeps the history a sequence of at most
    ten entries, and none crashes on such a history. *)
Lemma step_withinCapacity (w : World) (e : Event) :
  withinCapacity (State.history (ui w)) ->
  exists w', step w e = Some w' /\ withinCapacity (State.history (ui w')).
Proof.
  intros Hw. destruct e; simpl.
  - eexists; split; [reflexivity | exact Hw].
  - eexists; split; [reflexivity | exact Hw].
  - eexists; split; [reflexivity | exact Hw].
  - destruct (State.isLoading (ui w)); eexists; (split; [reflexivity|]);
      [|rewrite handleGenerate_begin_history]; exact Hw.
  - eexists; split; [reflexivity|]. unfold handleKeyDown.
    destruct (_ && _); [rewrite handleGenerate_begin_history|]; exact Hw.
  - eexists; split; [reflexivity|]. rewrite handleGenerate_begin_history. exact Hw.
  - destruct Hw as (items & Hh & Hlen). unfold handleGenerate_settle.
    destruct result as [r|]; simpl.
    + rewrite Hh, recordHistory_array. eexists; split; [reflexivity|].
      apply withinCapacity_take.
    + eexists; split; [reflexivity|]. exists items. auto.
  - eexists; split; [reflexivity|]. exists []. simpl. split; [reflexivity | lia].
  - eexists; split; [reflexivity | exact Hw].
  - eexists; split; [reflexivity|]. unfold recordButton_onClick.
    destruct (State.isTranscribing (ui w)); [exact Hw|].
    destruct (State.isRecording (ui w)); [rewrite stopRecording_history|]; exact Hw.
  - destruct (0 <? microphoneRequests w)%nat; eexists; (split; [reflexivity|]);
      [destruct mic|]; exact Hw.
  - eexists; split; [reflexivity|]. unfold ondataavailable.
    destruct (0 <? _)%nat; exact Hw.
  - eexists; split; [reflexivity | exact Hw].
  - eexists; split; [reflexivity|]. unfold onstop_settle.
    destruct text as [text|]; [destruct (truthy text)|]; exact Hw.
Qed.

Lemma run_withinCapacity (events : list Event) (w : World) :
  withinCapacity (State.history (ui w)) ->
  exists w', run w events = Some w' /\ withinCapacity (State.history (ui w')).
Proof.
  revert w. induction events as [|e events IH]; intros w Hw; simpl.
  - exists w. auto.
  - destruct (step_withinCapacity w e Hw) as (w1 & -> & Hw1). apply IH, Hw1.
Qed.

Lemma mount_withinCapacity (storage : gmap jsstring jsstring) :
  storedWithinCapacity storage = true ->
  withinCapacity (State.history (ui (mount storage))).
Proof.
  rewrite mount_history. unfold storedWithinCapacity.
  assert (withinCapacity (JArr [])) as Hempty
    by (exists []; simpl; split; [reflexivity | lia]).
  destruct (storage !! yap_history) as [saved|]; [|intros _; exact Hempty].
  destruct (JSON_parse saved) as [[| | | |items|]|]; try discriminate;
    [|intros _; exact Hempty].
  intros Hlen%Nat.leb_le. destruct (truthy saved); [|exact Hempty].
  exists items. auto.
Qed.

(** C1 fails as stated: what is stored is loaded as it is.  On a storage
    that holds a sequence of eleven items, the mounted component holds
    eleven entries. *)
Lemma loaded_history_exceeds_capacity :
  State.history (ui (mount (storageWith (storedItems 11)))) = JArr (repeat sampleItem 11)
  /\ List.length (repeat sampleItem 11) = 11%nat
  /\ ~ withinCapacity (State.history (ui (mount (storageWith (storedItems 11))))).
Proof.
  assert (State.history (ui (mount (storageWith (storedItems 11))))
          = JArr (repeat sampleItem 11)) as H by (vm_compute; reflexivity).
  split; [exact H|]. split; [reflexivity|].
  rewrite H. intros (items & [= <-] & Hlen). simpl in Hlen. lia.
Qed.

(** C1, as amended: the history cache never exceeds ten entries in any
    state the component reaches from a storage whose history entry is
    missing, is not JSON or is a sequence of at most ten entries, and no
    step crashes there; recording puts the new item at index 0 and keeps the
    first ten, so on ten entries the last (oldest) one is dropped, and after
    several recordings the ten most recent remain, newest first; a stored
    sequence is loaded as it is, whatever its length. *)
Theorem history_cache_capacity (storage : gmap jsstring jsstring)
    (events : list Event) (newItem : JSValue) (items : list JSValue) :
  (storedWithinCapacity storage = true ->
   exists w, run (mount storage) events = Some w
             /\ withinCapacity (State.history (ui w)))
  /\ recordHistory newItem (JArr items) = Some (JArr (take 10 (newItem :: items)))
  /\ (List.length items = 10%nat ->
      recordHistory newItem (JArr items) = Some (JArr (newItem :: removelast items)))
  /\ (forall newItems, (List.length items <= 10)%nat ->
      recordAll newItems (JArr items) = Some (JArr (take 10 (rev newItems ++ items))))
  /\ (forall saved,
        storage !! yap_history = Some saved -> JSON_parse saved = Some (JArr items) ->
        State.history (ui (mount storage)) = JArr items).
Proof.
  split; [|split; [|split; [|split]]].
  - intros H. apply run_withinCapacity, mount_withinCapacity, H.
  - apply recordHistory_array.
  - intros Hlen. rewrite recordHistory_array. simpl.
    rewrite (take_removelast 9 items Hlen). reflexivity.
  - intros newItems. apply recordAll_newest_first.
  - intros saved Hsaved Hparse. rewrite mount_history, Hsaved, Hparse.
    destruct saved; [discriminate Hparse | reflexivity].
Qed.

Lemma history_cache_capacity_witness :
  (exists w,
     run (mount (storageWith (storedItems 10)))
       [TopicInput (js "cats"); GenerateClick;
        GenerateSettled (requestOf (typed (js "cats"))) (Some (js "yap")) (js "u1") 1]
     = Some w
     /\ withinCapacity (State.history (ui w)))
  /\ recordHistory (JStr (js "new")) (JArr (repeat sampleItem 10)) =
       Some (JArr (JStr (js "new") :: removelast (repeat sampleItem 10)))
  /\ State.history (ui (mount (storageWith (storedItems 10)))) = JArr (repeat sampleItem 10).
Proof.
  pose proof (history_cache_capacity (storageWith (storedItems 10))
                [TopicInput (js "cats"); GenerateClick;
                 GenerateSettled (requestOf (typed (js "cats"))) (Some (js "yap")) (js "u1") 1]
                (JStr (js "new")) (repeat sampleItem 10)) as (Hrun & _ & Hrec & _ & Hload).
  split; [apply Hrun; vm_compute; reflexivity|].
  split; [apply Hrec; reflexivity|].
  apply (Hload (storedItems 10)); vm_compute; reflexivity.
Defined.

(** * Further properties of the component *)

(** ** A successful generation *)

(** When the call of a Generate invocation succeeds and the history is
    then a sequence, the result is displayed, the loading flag goes off, the
    item built from the request made at the dispatch is first in the history
    before the nine first old entries, and the storage holds the text of the
    new history; the error and the topic are left as they are at that moment
    ([w1] is the world the answer arrives in: only the dispatch clears the
    error).  If nothing happened in between, no error is shown and the item
    has the topic and style of the world the invocation started in. *)
Theorem generate_success_state (w w1 : World) (req : YapRequest.t)
    (result uuid : jsstring) (now : Z) (items : list JSValue) :
  (State.history (ui w1) = JArr items ->
   exists w',
     handleGenerate_settle req (Some result) uuid now w1 = Some w'
     /\ State.generatedContent (ui w') = result
     /\ State.isLoading (ui w') = false
     /\ State.error (ui w') = State.error (ui w1)
     /\ State.topic (ui w') = State.topic (ui w1)
     /\ State.history (ui w') =
          JArr (HistoryItem.toJS (newItemOf req result uuid now) :: take 9 items)
     /\ localStorage w' !! yap_history =
          Some (JSON_stringify (State.history (ui w'))))
  /\ (trim (State.topic (ui w)) <> [] ->
      State.history (ui w) = JArr items ->
      exists w',
        handleGenerate (Some result) uuid now w = Some w'
        /\ State.generatedContent (ui w') = result
        /\ State.error (ui w') = None
        /\ State.isLoading (ui w') = false
        /\ State.topic (ui w') = State.topic (ui w)
        /\ State.history (ui w') =
             JArr (HistoryItem.toJS (newItemOf (requestOf w) result uuid now)
                   :: take 9 items)
        /\ localStorage w' !! yap_history =
             Some (JSON_stringify (State.history (ui w')))).
Proof.
  split.
  - intros Hhistory. unfold handleGenerate_settle. simpl.
    rewrite Hhistory, recordHistory_array.
    eexists. split; [reflexivity|]. simpl.
    repeat (split; [reflexivity|]). apply lookup_insert_eq.
  - intros Htopic Hhistory. unfold handleGenerate.
    rewrite (handleGenerate_begin_topic w Htopic).
    unfold handleGenerate_settle. simpl. rewrite Hhistory, recordHistory_array.
    eexists. split; [reflexivity|]. simpl.
    repeat (split; [reflexivity|]). apply lookup_insert_eq.
Qed.

Lemma generate_success_state_witness :
  (exists w',
     handleGenerate_settle (requestOf (typed (js "cats"))) (Some (js "yap")) (js "u1") 7
       (startRecording_settle (Refused (js "denied"))
          (recordButton_onClick (handleGenerate_begin (typed (js "cats"))).1))
     = Some w'
     /\ State.generatedContent (ui w') = js "yap"
     /\ State.error (ui w') = Some (js "Microphone access denied or not supported."))
  /\ (exists w',
        handleGenerate (Some (js "yap")) (js "u1") 7 (typed (js "cats")) = Some w'
        /\ State.generatedContent (ui w') = js "yap"
        /\ State.error (ui w') = None).
Proof.
  pose proof (generate_success_state (typed (js "cats"))
                (startRecording_settle (Refused (js "denied"))
                   (recordButton_onClick (handleGenerate_begin (typed (js "cats"))).1))
                (requestOf (typed (js "cats"))) (js "yap") (js "u1") 7 [])
    as [Hsettle Hwhole].
  split.
  - destruct Hsettle as (w' & Hrun & Hcontent & _ & Herror & _); [reflexivity|].
    exists w'. split; [exact Hrun|]. split; [exact Hcontent|].
    rewrite Herror. reflexivity.
  - destruct Hwhole as (w' & Hrun & Hcontent & Herror & _);
      [vm_compute; discriminate | reflexivity|].
    exists w'. split; [exact Hrun|]. split; [exact Hcontent | exact Herror].
Defined.

(** A successful generation on a history that cannot be spread (a number,
    a boolean, null or an object, as a stored value of that shape leaves it)
    ends in the render error: the updater throws outside any handler. *)
Theorem generate_success_on_non_iterable (w : World) (result uuid : jsstring)
    (now : Z) :
  trim (State.topic (ui w)) <> [] ->
  spread (State.history (ui w)) = None ->
  handleGenerate (Some result) uuid now w = None
  /\ exists w', handleGenerate None uuid now w = Some w'
                /\ State.history (ui w') = State.history (ui w).
Proof.
  intros Htopic Hspread. unfold handleGenerate.
  rewrite (handleGenerate_begin_topic w Htopic).
  unfold handleGenerate_settle, recordHistory. simpl. rewrite Hspread.
  split; [reflexivity|]. eexists. split; reflexivity.
Qed.

Lemma generate_success_on_non_iterable_witness :
  handleGenerate (Some (js "yap")) (js "u1") 7
    (onUi (setTopic (js "cats")) (mount (storageWith sampleItemText))) = None.
Proof.
  apply (generate_success_on_non_iterable
           (onUi (setTopic (js "cats")) (mount (storageWith sampleItemText)))
           (js "yap") (js "u1") 7).
  - vm_compute. discriminate.
  - vm_compute. reflexivity.
Defined.

(** ** What a step does to the storage and to the call log *)

(** A step leaves the storage and the history alone, or writes the text of
    the history it leaves under the history key. *)
Lemma step_storage_history (w w' : World) (e : Event) :
  step w e = Some w' ->
  (localStorage w' = localStorage w
   /\ State.history (ui w') = State.history (ui w))
  \/ localStorage w' =
       <[yap_history := JSON_stringify (State.history (ui w'))]> (localStorage w).
Proof.
  destruct e; simpl.
  - intros [= <-]. left. split; reflexivity.
  - intros [= <-]. left. split; reflexivity.
  - intros [= <-]. left. split; reflexivity.
  - destruct (State.isLoading (ui w)); intros [= <-]; left;
      [split; reflexivity|].
    rewrite handleGenerate_begin_history. split; [|reflexivity].
    unfold handleGenerate_begin.
    destruct (truthy (trim (State.topic (ui w)))); reflexivity.
  - intros [= <-]. left. unfold handleKeyDown, handleGenerate_begin.
    destruct (_ && _); [|split; reflexivity].
    destruct (truthy (trim (State.topic (ui w)))); split; reflexivity.
  - intros [= <-]. left. unfold handleGenerate_begin.
    destruct (truthy (trim (State.topic (ui w)))); split; reflexivity.
  - unfold handleGenerate_settle. destruct result as [r|]; simpl.
    + destruct (recordHistory _ _) as [h|]; [|discriminate].
      intros [= <-]. right. reflexivity.
    + intros [= <-]. left. split; reflexivity.
  - intros [= <-]. right. unfold clearHistory, handleClearHistory. simpl.
    apply insert_delete_eq.
  - intros [= <-]. left. split; reflexivity.
  - intros [= <-]. left. unfold recordButton_onClick, stopRecording.
    destruct (State.isTranscribing (ui w)); [split; reflexivity|].
    destruct (State.isRecording (ui w)); [|split; reflexivity].
    destruct (mediaRecorderRef w); split; reflexivity.
  - destruct (0 <? microphoneRequests w)%nat; intros [= <-]; left;
      [destruct mic|]; split; reflexivity.
  - intros [= <-]. left. unfold ondataavailable.
    destruct (0 <? _)%nat; split; reflexivity.
  - intros [= <-]. left. split; reflexivity.
  - intros [= <-]. left. unfold onstop_settle.
    destruct text as [text|]; [destruct (truthy text)|]; split; reflexivity.
Qed.

(** A property kept by every step holds after every run. *)
Lemma run_invariant (I : World -> Prop) :
  (forall w e w', I w -> step w e = Some w' -> I w') ->
  forall events w w', I w -> run w events = Some w' -> I w'.
Proof.
  intros Hstep. induction events as [|e events IH]; intros w w' Hw; simpl.
  - intros [= <-]. exact Hw.
  - destruct (step w e) as [w1|] eqn:He; [|discriminate].
    apply IH. eapply Hstep; eassumption.
Qed.

(** In every state the component reaches, the storage holds the text of
    the history it displays: the history is persisted in full after every
    change, a clear included. *)
Theorem storage_holds_history (storage : gmap jsstring jsstring)
    (events : list Event) (w : World) :
  run (mount storage) events = Some w ->
  localStorage w !! yap_history = Some (JSON_stringify (State.history (ui w))).
Proof.
  apply (run_invariant
           (fun w => localStorage w !! yap_history =
                     Some (JSON_stringify (State.history (ui w))))).
  - intros w0 e w1 Hw0 [[Hs Hh] | Hs]%step_storage_history.
    + rewrite Hs, Hh. exact Hw0.
    + rewrite Hs. apply lookup_insert_eq.
  - apply mount_storage.
Qed.

Lemma storage_holds_history_witness :
  exists w,
    run (mount (storageWith (storedItems 2)))
      [TopicInput (js "cats"); GenerateClick;
       GenerateSettled (requestOf (typed (js "cats"))) (Some (js "yap")) (js "u1") 1;
       ClearClick] = Some w
    /\ localStorage w !! yap_history = Some (JSON_stringify (State.history (ui w))).
Proof.
  eexists. split; [vm_compute; reflexivity|].
  apply (storage_holds_history (storageWith (storedItems 2))
           [TopicInput (js "cats"); GenerateClick;
            GenerateSettled (requestOf (typed (js "cats"))) (Some (js "yap")) (js "u1") 1;
            ClearClick]).
  vm_compute. reflexivity.
Defined.

(** The component never touches another key of the storage: whatever it
    does, every key but the history key holds what it held at startup. *)
Theorem storage_other_keys_untouched (storage : gmap jsstring jsstring)
    (events : list Event) (w : World) (key : jsstring) :
  key <> yap_history ->
  run (mount storage) events = Some w ->
  localStorage w !! key = storage !! key.
Proof.
  intros Hkey.
  apply (run_invariant (fun w => localStorage w !! key = storage !! key)).
  - intros w0 e w1 Hw0 [[Hs _] | Hs]%step_storage_history; rewrite Hs.
    + exact Hw0.
    + rewrite lookup_insert_ne by congruence. exact Hw0.
  - unfold mount, loadHistoryEffect, localStorage_getItem. simpl.
    destruct (storage !! yap_history) as [saved|];
      [destruct (truthy saved), (JSON_parse saved)|];
      simpl; rewrite ?lookup_insert_ne by congruence; reflexivity.
Qed.

Lemma storage_other_keys_untouched_witness :
  exists w,
    run (mount (<[js "theme" := js "dark"]> (storageWith (storedItems 2))))
      [ClearClick] = Some w
    /\ localStorage w !! js "theme" = Some (js "dark").
Proof.
  eexists. split; [vm_compute; reflexivity|].
  rewrite (storage_other_keys_untouched
             (<[js "theme" := js "dark"]> (storageWith (storedItems 2)))
             [ClearClick] _ (js "theme")).
  - vm_compute. reflexivity.
  - vm_compute. discriminate.
  - vm_compute. reflexivity.
Defined.

(** ** The guard of Generate *)

Lemma dropWhile_nil_iff {A} (p : A -> bool) (l : list A) :
  dropWhile p l = [] <-> forallb p l = true.
Proof.
  induction l as [|x l IH]; simpl; [tauto|].
  destruct (p x); simpl; [exact IH | split; discriminate].
Qed.

Lemma dropWhile_head {A} (p : A -> bool) (l : list A) (x : A) (rest : list A) :
  dropWhile p l = x :: rest -> p x = false.
Proof.
  induction l as [|y l IH]; simpl; [discriminate|].
  destruct (p y) eqn:Hy; [exact IH|]. intros [= -> _]. exact Hy.
Qed.

Lemma dropWhile_forallb {A} (p : A -> bool) (l : list A) :
  forallb p l = true -> forallb p (dropWhile p l) = true.
Proof. intros H. apply dropWhile_nil_iff in H. rewrite H. reflexivity. Qed.

Lemma forallb_reverse {A} (p : A -> bool) (l : list A) :
  forallb p (rev l) = forallb p l.
Proof.
  induction l as [|x l IH]; [reflexivity|].
  simpl. rewrite forallb_app, IH. simpl. rewrite andb_true_r. apply andb_comm.
Qed.

(** The trimmed string is empty exactly when every code unit of the string
    is white space. *)
Lemma trim_nil_iff (s : jsstring) :
  trim s = [] <-> forallb isWhiteSpace s = true.
Proof.
  unfold trim, trimEnd, trimStart. split.
  - intros H. apply (f_equal (@rev N)) in H. rewrite rev_involutive in H.
    simpl in H. apply dropWhile_nil_iff in H. rewrite forallb_reverse in H.
    destruct (dropWhile isWhiteSpace s) as [|x rest] eqn:Hdrop.
    + apply dropWhile_nil_iff, Hdrop.
    + apply dropWhile_head in Hdrop. simpl in H. rewrite Hdrop in H.
      discriminate.
  - intros H. apply dropWhile_nil_iff in H. rewrite H. reflexivity.
Qed.

(** Generate refuses a topic exactly when it consists of white space only
    (the empty topic included): then, and only then, no request is made. *)
Theorem generate_refuses_iff_whitespace (w : World) :
  (handleGenerate_begin w).2 = None
  <-> forallb isWhiteSpace (State.topic (ui w)) = true.
Proof.
  rewrite <- trim_nil_iff. unfold handleGenerate_begin.
  destruct (trim (State.topic (ui w))) as [|c rest]; simpl.
  - split; reflexivity.
  - split; discriminate.
Qed.

(** ** The call log *)

(** A step issues no call, or the one call of the current topic, style and
    length, and then the topic is not blank. *)
Lemma step_calls (w w' : World) (e : Event) :
  step w e = Some w' ->
  generateCalls w' = generateCalls w
  \/ (trim (State.topic (ui w)) <> []
      /\ generateCalls w' = generateCalls w ++ [requestOf w]).
Proof.
  assert (forall w,
            generateCalls (handleGenerate_begin w).1 = generateCalls w
            \/ (trim (State.topic (ui w)) <> []
                /\ generateCalls (handleGenerate_begin w).1 =
                     generateCalls w ++ [requestOf w])) as Hbegin.
  { intros w0. unfold handleGenerate_begin.
    destruct (truthy (trim (State.topic (ui w0)))) eqn:Htopic; simpl.
    - right. split; [apply truthy_true, Htopic | reflexivity].
    - left. reflexivity. }
  destruct e; simpl; try (intros [= <-]; left; reflexivity).
  - destruct (State.isLoading (ui w)); intros [= <-]; [left; reflexivity|].
    apply Hbegin.
  - intros [= <-]. unfold handleKeyDown.
    destruct (_ && _); [apply Hbegin | left; reflexivity].
  - intros [= <-]. apply Hbegin.
  - intros H%handleGenerate_settle_calls. left. exact H.
  - intros [= <-]. left. unfold recordButton_onClick, stopRecording.
    destruct (State.isTranscribing (ui w)); [reflexivity|].
    destruct (State.isRecording (ui w)); [|reflexivity].
    destruct (mediaRecorderRef w); reflexivity.
  - destruct (0 <? microphoneRequests w)%nat; intros [= <-]; left;
      [destruct mic|]; reflexivity.
  - intros [= <-]. left. unfold ondataavailable.
    destruct (0 <? _)%nat; reflexivity.
  - intros [= <-]. left. unfold onstop_settle.
    destruct text as [text|]; [destruct (truthy text)|]; reflexivity.
Qed.

(** Whatever the user does and by whichever control (the button, the
    keyboard shortcut, regenerate), no generation call is ever made with a
    topic that is blank. *)
Theorem no_call_with_blank_topic (storage : gmap jsstring jsstring)
    (events : list Event) (w : World) :
  run (mount storage) events = Some w ->
  Forall (fun req => trim (YapRequest.topic req) <> []) (generateCalls w).
Proof.
  apply (run_invariant
           (fun w => Forall (fun req => trim (YapRequest.topic req) <> [])
                            (generateCalls w))).
  - intros w0 e w1 Hw0 [Hsame | [Htopic Hcall]]%step_calls.
    + rewrite Hsame. exact Hw0.
    + rewrite Hcall. apply Forall_app. split; [exact Hw0|].
      constructor; [exact Htopic | constructor].
  - unfold mount, loadHistoryEffect, localStorage_getItem. simpl.
    destruct (storage !! yap_history) as [saved|];
      [destruct (truthy saved), (JSON_parse saved)|]; constructor.
Qed.

Lemma no_call_with_blank_topic_witness :
  exists w,
    run (mount ∅)
      [GenerateClick; TopicInput (js "  "); KeyDown (js "Enter") true;
       TopicInput (js " cats"); Regenerate] = Some w
    /\ Forall (fun req => trim (YapRequest.topic req) <> []) (generateCalls w)
    /\ List.length (generateCalls w) = 1%nat.
Proof.
  eexists. split; [vm_compute; reflexivity|]. split; [|reflexivity].
  apply (no_call_with_blank_topic ∅
           [GenerateClick; TopicInput (js "  "); KeyDown (js "Enter") true;
            TopicInput (js " cats"); Regenerate]).
  vm_compute. reflexivity.
Defined.

(** ** The keyboard shortcut and the loading flag *)



(** ** Selecting a history entry *)

(** Selecting an entry shows its content and leaves the history, the
    storage and the selected length as they are; a Generate that follows
    asks for the entry's topic in the entry's style, with the length
    selected before (an entry does not keep its length). *)
Theorem select_then_generate (item : HistoryItem.t) (w : World) :
  trim (HistoryItem.topic item) <> [] ->
  State.generatedContent (ui (handleSelectHistory item w)) = HistoryItem.content item
  /\ State.history (ui (handleSelectHistory item w)) = State.history (ui w)
  /\ localStorage (handleSelectHistory item w) = localStorage w
  /\ (handleGenerate_begin (handleSelectHistory item w)).2 =
       Some {| YapRequest.topic := HistoryItem.topic item;
               YapRequest.style := HistoryItem.style item;
               YapRequest.length := State.length (ui w) |}.
Proof.
  intros Htopic. repeat (split; [reflexivity|]).
  rewrite handleGenerate_begin_topic by exact Htopic. reflexivity.
Qed.

Lemma select_then_generate_witness :
  (handleGenerate_begin
     (handleSelectHistory (newItemOf (requestOf (typed (js "cats"))) (js "yap") (js "u1") 7)
        (onUi (setLength LONG) (mount ∅)))).2
  = Some {| YapRequest.topic := js "cats";
            YapRequest.style := ZOOMER;
            YapRequest.length := LONG |}.
Proof.
  apply (select_then_generate
           (newItemOf (requestOf (typed (js "cats"))) (js "yap") (js "u1") 7)
           (onUi (setLength LONG) (mount ∅))).
  vm_compute. discriminate.
Defined.

(** ** The recording session, further *)

(** Stopping twice is stopping once. *)
Theorem stopRecording_idempotent (w : World) :
  stopRecording (stopRecording w) = stopRecording w.
Proof.
  unfold stopRecording at 2 3.
  destruct (mediaRecorderRef w) as [i|] eqn:Href.
  - destruct (State.isRecording (ui w)) eqn:Hflag.
    + unfold stopRecording. simpl. rewrite Href. reflexivity.
    + unfold stopRecording. rewrite Href, Hflag. reflexivity.
  - unfold stopRecording. rewrite Href. reflexivity.
Qed.

(** Whether the transcription succeeds, returns nothing or fails, the
    handler of a stopped recorder ends with the transcribing flag off and
    the tracks of that recorder's stream stopped; it touches no other
    recorder and never turns the capture of any recorder on. *)
Theorem onstop_releases_tracks (i : nat) (text : option jsstring) (w : World)
    (r : Recorder) :
  recorders w !! i = Some r ->
  State.isTranscribing (ui (onstop_settle i text w)) = false
  /\ recorders (onstop_settle i text w) !! i = Some (stopTracks r)
  /\ (forall j, j <> i -> recorders (onstop_settle i text w) !! j = recorders w !! j)
  /\ activeCaptures (onstop_settle i text w) = activeCaptures w.
Proof.
  intros Hr.
  assert (recorders (onstop_settle i text w) = alter stopTracks i (recorders w)) as ->.
  { unfold onstop_settle. destruct text as [text|]; [destruct (truthy text)|];
      reflexivity. }
  assert (activeCaptures (onstop_settle i text w)
          = List.length (List.filter capturing (alter stopTracks i (recorders w)))) as ->.
  { unfold onstop_settle, activeCaptures.
    destruct text as [text|]; [destruct (truthy text)|]; reflexivity. }
  split.
  { unfold onstop_settle. destruct text as [text|]; [destruct (truthy text)|];
      reflexivity. }
  split; [rewrite list_lookup_alter_eq, Hr; reflexivity|].
  split; [intros j Hj; apply list_lookup_alter_ne; congruence|].
  unfold activeCaptures. clear Hr. generalize (recorders w) as rs. revert i.
  induction i as [|i IH]; intros [|r0 rs]; try reflexivity.
  - simpl. destruct r0 as [[] ?]; reflexivity.
  - change (alter stopTracks (S i) (r0 :: rs)) with (r0 :: alter stopTracks i rs).
    simpl. specialize (IH rs). destruct (capturing r0); simpl; rewrite IH; reflexivity.
Qed.

Lemma onstop_releases_tracks_witness :
  State.isTranscribing
    (ui (onstop_settle 0 None (onstop_begin (stopRecording recordingAfterDoubleClick))))
  = false
  /\ recorders (onstop_settle 0 None (onstop_begin (stopRecording recordingAfterDoubleClick)))
       !! 0%nat
     = Some {| capturing := false; tracksLive := false |}.
Proof.
  destruct (onstop_releases_tracks 0 None
              (onstop_begin (stopRecording recordingAfterDoubleClick))
              {| capturing := false; tracksLive := true |}) as (H1 & H2 & _).
  - reflexivity.
  - split; [exact H1 | exact H2].
Defined.

(** A transcript that is not blank leaves a topic that is not blank, so a
    Generate after a dictation is not refused. *)
Theorem transcript_makes_topic_acceptable (i : nat) (text : jsstring) (w : World) :
  forallb isWhiteSpace text = false ->
  trim (State.topic (ui (onstop_settle i (Some text) w))) <> []
  /\ (handleGenerate_begin (onstop_settle i (Some text) w)).2
     = Some (requestOf (onstop_settle i (Some text) w)).
Proof.
  intros Htext.
  assert (trim (State.topic (ui (onstop_settle i (Some text) w))) <> []) as Hnew.
  { assert (truthy text = true) as Htruthy
      by (destruct text; [discriminate Htext | reflexivity]).
    rewrite trim_nil_iff. unfold onstop_settle, appendTranscript.
    rewrite Htruthy.
    cbn [State.topic ui onUi setTopic setIsTranscribing withRecorders].
    destruct (truthy (trim (State.topic (ui w)))).
    - rewrite !forallb_app, Htext, !andb_false_r. discriminate.
    - rewrite Htext. discriminate. }
  split; [exact Hnew|].
  rewrite handleGenerate_begin_topic by exact Hnew. reflexivity.
Qed.

Lemma transcript_makes_topic_acceptable_witness :
  trim (State.topic (ui (onstop_settle 0 (Some (js " dogs ")) (typed (js "  "))))) <> [].
Proof.
  apply (transcript_makes_topic_acceptable 0 (js " dogs ") (typed (js "  "))).
  vm_compute. reflexivity.
Defined.

(** What a step does to the recording flag, the recorder reference and
    the list of recorders: the list never shrinks, the reference changes
    only to the recorder just created, and the flag is set only then. *)
Lemma step_recorder_ref (w w' : World) (e : Event) :
  step w e = Some w' ->
  (List.length (recorders w) <= List.length (recorders w'))%nat
  /\ ((mediaRecorderRef w' = mediaRecorderRef w
       /\ (State.isRecording (ui w') = true -> State.isRecording (ui w) = true))
      \/ (mediaRecorderRef w' = Some (List.length (recorders w))
          /\ List.length (recorders w') = S (List.length (recorders w)))).
Proof.
  assert (forall w0, mediaRecorderRef (handleGenerate_begin w0).1 = mediaRecorderRef w0
                     /\ recorders (handleGenerate_begin w0).1 = recorders w0
                     /\ State.isRecording (ui (handleGenerate_begin w0).1)
                        = State.isRecording (ui w0)) as Hbegin.
  { intros w0. unfold handleGenerate_begin.
    destruct (truthy (trim (State.topic (ui w0)))); repeat split. }
  assert (forall w0 : World,
            mediaRecorderRef w0 = mediaRecorderRef w ->
            recorders w0 = recorders w ->
            State.isRecording (ui w0) = State.isRecording (ui w) ->
            (List.length (recorders w) <= List.length (recorders w0))%nat
            /\ ((mediaRecorderRef w0 = mediaRecorderRef w
                 /\ (State.isRecording (ui w0) = true
                     -> State.isRecording (ui w) = true))
                \/ (mediaRecorderRef w0 = Some (List.length (recorders w))
                    /\ List.length (recorders w0) = S (List.length (recorders w)))))
    as Hsame.
  { intros w0 -> -> ->. split; [lia | left; tauto]. }
  destruct e; simpl; try (intros [= <-]; apply Hsame; reflexivity).
  - destruct (State.isLoading (ui w)); intros [= <-];
      [apply Hsame; reflexivity | apply Hsame; apply Hbegin].
  - intros [= <-]. unfold handleKeyDown.
    destruct (_ && _); [apply Hsame; apply Hbegin | apply Hsame; reflexivity].
  - intros [= <-]. apply Hsame; apply Hbegin.
  - unfold handleGenerate_settle. destruct result as [r|]; simpl.
    + destruct (recordHistory _ _); [|discriminate]. intros [= <-].
      apply Hsame; reflexivity.
    + intros [= <-]. apply Hsame; reflexivity.
  - intros [= <-]. clear Hsame Hbegin. unfold recordButton_onClick, stopRecording.
    destruct (State.isTranscribing (ui w));
      [split; [lia | left; split; [reflexivity | congruence]]|].
    destruct (State.isRecording (ui w)) eqn:Hflag.
    + destruct (mediaRecorderRef w) eqn:Href; simpl;
        rewrite ?length_alter, ?Href;
        (split; [lia | left; split; [reflexivity | congruence]]).
    + simpl. rewrite Hflag.
      split; [lia | left; split; [reflexivity | congruence]].
  - destruct (0 <? microphoneRequests w)%nat; intros [= <-];
      [|apply Hsame; reflexivity].
    destruct mic; [|apply Hsame; reflexivity].
    simpl. rewrite length_app. simpl. split; [lia|]. right. split; [reflexivity | lia].
  - intros [= <-]. unfold ondataavailable.
    destruct (0 <? _)%nat; apply Hsame; reflexivity.
  - intros [= <-]. unfold onstop_settle.
    destruct text as [text|]; [destruct (truthy text)|]; simpl;
      rewrite length_alter; (split; [lia | left; tauto]).
Qed.

(** In every state the component reaches with the recording flag set, the
    recorder reference points to a recorder, so a click on the record
    button (enabled, that is, no transcription running) stops that
    recorder and clears the flag. *)
Theorem stop_finds_the_recorder (storage : gmap jsstring jsstring)
    (events : list Event) (w : World) :
  run (mount storage) events = Some w ->
  State.isRecording (ui w) = true ->
  State.isTranscribing (ui w) = false ->
  exists i r,
    mediaRecorderRef w = Some i
    /\ recorders w !! i = Some r
    /\ State.isRecording (ui (recordButton_onClick w)) = false
    /\ recorders (recordButton_onClick w) !! i = Some (stopCapture r).
Proof.
  intros Hrun Hflag Htranscribing.
  assert ((forall i, mediaRecorderRef w = Some i
                     -> (i < List.length (recorders w))%nat)
          /\ (State.isRecording (ui w) = true -> mediaRecorderRef w <> None))
    as [Hrange Href].
  { revert Hrun.
    apply (run_invariant
             (fun w => (forall i, mediaRecorderRef w = Some i
                                  -> (i < List.length (recorders w))%nat)
                       /\ (State.isRecording (ui w) = true
                           -> mediaRecorderRef w <> None))).
    - intros w0 e w1 [Hrange0 Href0] (Hlen & [[Hsame Hflag1] | [Hnew Hlen1]])%step_recorder_ref.
      + rewrite Hsame. split.
        * intros i Hi. specialize (Hrange0 i Hi). lia.
        * intros H. apply Href0, Hflag1, H.
      + rewrite Hnew. split; [|discriminate]. intros i [= <-]. lia.
    - unfold mount, loadHistoryEffect, localStorage_getItem. simpl.
      destruct (storage !! yap_history) as [saved|];
        [destruct (truthy saved), (JSON_parse saved)|]; simpl;
        split; discriminate. }
  destruct (mediaRecorderRef w) as [i|] eqn:Hi; [|destruct (Href Hflag); reflexivity].
  destruct (lookup_lt_is_Some_2 (recorders w) i (Hrange i eq_refl)) as [r Hr].
  exists i, r. split; [reflexivity|]. split; [exact Hr|].
  unfold recordButton_onClick, stopRecording.
  rewrite Htranscribing, Hflag, Hi. simpl. split; [reflexivity|].
  rewrite list_lookup_alter_eq, Hr. reflexivity.
Qed.

Lemma stop_finds_the_recorder_witness :
  exists i r,
    mediaRecorderRef recordingAfterDoubleClick = Some i
    /\ recorders recordingAfterDoubleClick !! i = Some r
    /\ State.isRecording (ui (recordButton_onClick recordingAfterDoubleClick)) = false
    /\ recorders (recordButton_onClick recordingAfterDoubleClick) !! i
       = Some (stopCapture r).
Proof.
  apply (stop_finds_the_recorder ∅
           [RecordClick; RecordClick; MicrophoneSettled Granted]);
    vm_compute; reflexivity.
Defined.

(** No empty chunk of audio is ever kept: in every state the component
    reaches, each chunk waiting to be transcribed has at least one byte. *)
Theorem no_empty_audio_chunk (storage : gmap jsstring jsstring)
    (events : list Event) (w : World) :
  run (mount storage) events = Some w ->
  Forall (fun chunk => chunk <> []) (audioChunksRef w).
Proof.
  apply (run_invariant (fun w => Forall (fun chunk => chunk <> []) (audioChunksRef w))).
  - intros w0 e w1 Hw0. destruct e; simpl;
      try (intros [= <-]; exact Hw0).
    + destruct (State.isLoading (ui w0)); intros [= <-]; [exact Hw0|].
      unfold handleGenerate_begin.
      destruct (truthy (trim (State.topic (ui w0)))); exact Hw0.
    + intros [= <-]. unfold handleKeyDown, handleGenerate_begin.
      destruct (_ && _); [|exact Hw0].
      destruct (truthy (trim (State.topic (ui w0)))); exact Hw0.
    + intros [= <-]. unfold handleGenerate_begin.
      destruct (truthy (trim (State.topic (ui w0)))); exact Hw0.
    + unfold handleGenerate_settle. destruct result as [r|]; simpl.
      * destruct (recordHistory _ _); [|discriminate]. intros [= <-]. exact Hw0.
      * intros [= <-]. exact Hw0.
    + intros [= <-]. unfold recordButton_onClick, stopRecording.
      destruct (State.isTranscribing (ui w0)); [exact Hw0|].
      destruct (State.isRecording (ui w0)); [|exact Hw0].
      destruct (mediaRecorderRef w0); exact Hw0.
    + destruct (0 <? microphoneRequests w0)%nat; intros [= <-]; [|exact Hw0].
      destruct mic; [constructor | exact Hw0].
    + intros [= <-]. unfold ondataavailable.
      destruct data as [|b data]; [exact Hw0|]. simpl.
      apply Forall_app. split; [exact Hw0|]. constructor; [discriminate | constructor].
    + intros [= <-]. unfold onstop_settle.
      destruct text as [text|]; [destruct (truthy text)|]; exact Hw0.
  - unfold mount, loadHistoryEffect, localStorage_getItem. simpl.
    destruct (storage !! yap_history) as [saved|];
      [destruct (truthy saved), (JSON_parse saved)|]; constructor.
Qed.

Lemma no_empty_audio_chunk_witness :
  exists w,
    run (mount ∅)
      [RecordClick; MicrophoneSettled Granted; DataAvailable [];
       DataAvailable [1; 2]; DataAvailable []] = Some w
    /\ audioChunksRef w = [[1; 2]]
    /\ Forall (fun chunk => chunk <> []) (audioChunksRef w).
Proof.
  eexists. split; [vm_compute; reflexivity|]. split; [reflexivity|].
  apply (no_empty_audio_chunk ∅
           [RecordClick; MicrophoneSettled Granted; DataAvailable [];
            DataAvailable [1; 2]; DataAvailable []]).
  vm_compute. reflexivity.
Defined.

Lemma alter_last {A} (f : A -> A) (l : list A) (x : A) :
  alter f (List.length l) (l ++ [x]) = l ++ [f x].
Proof.
  rewrite <- (Nat.add_0_r (List.length l)). apply (alter_app_r f l [x] 0).
Qed.

(** A whole session on an idle component brings it back to idle: record,
    microphone granted, a chunk of audio, stop, transcription settled.  The
    flags are off again, the one recorder created for the session has
    stopped and its tracks are released, no request to the microphone is
    left pending, and the topic is the one the settled transcription gives;
    the history and the storage are not touched. *)
Theorem session_returns_to_idle (data : Blob) (text : option jsstring) (w : World) :
  State.isRecording (ui w) = false ->
  State.isTranscribing (ui w) = false ->
  exists w',
    run w (session data text w) = Some w'
    /\ State.isRecording (ui w') = false
    /\ State.isTranscribing (ui w') = false
    /\ recorders w' = recorders w ++ [{| capturing := false; tracksLive := false |}]
    /\ activeCaptures w' = activeCaptures w
    /\ microphoneRequests w' = microphoneRequests w
    /\ State.topic (ui w') =
         State.topic (ui (onstop_settle (List.length (recorders w)) text w))
    /\ State.history (ui w') = State.history (ui w)
    /\ localStorage w' = localStorage w.
Proof.
  intros Hrecording Htranscribing. unfold session.
  assert (recordButton_onClick w = startRecording_begin w) as Hclick
    by (unfold recordButton_onClick; rewrite Htranscribing, Hrecording; reflexivity).
  cbn [run step]. rewrite Hclick.
  cbn [startRecording_begin withMicrophoneRequests microphoneRequests Nat.ltb Nat.leb].
  set (w2 := startRecording_settle Granted (startRecording_begin w)).
  set (w3 := ondataavailable data w2).
  assert (State.isTranscribing (ui w3) = false
          /\ State.isRecording (ui w3) = true
          /\ mediaRecorderRef w3 = Some (List.length (recorders w))
          /\ recorders w3 = recorders w ++ [{| capturing := true; tracksLive := true |}]
          /\ microphoneRequests w3 = microphoneRequests w
          /\ State.topic (ui w3) = State.topic (ui w)
          /\ State.history (ui w3) = State.history (ui w)
          /\ localStorage w3 = localStorage w) as (Ht3 & Hr3 & Href3 & Hrs3 & Hm3 & Htopic3 & Hh3 & Hs3).
  { subst w3 w2. unfold ondataavailable.
    destruct (0 <? List.length data)%nat; simpl; rewrite Htranscribing; repeat split. }
  unfold recordButton_onClick, stopRecording. rewrite Ht3, Hr3, Href3, Hrs3, alter_last.
  eexists. split; [reflexivity|].
  unfold onstop_begin, onstop_settle.
  destruct text as [text|]; [destruct (truthy text)|];
    cbn -[alter]; rewrite ?alter_last, ?Htopic3, ?Hh3, ?Hs3, ?Hm3;
    (repeat split);
    unfold activeCaptures; cbn -[alter]; rewrite ?alter_last;
    rewrite List.filter_app, length_app; simpl; lia.
Qed.

Lemma session_returns_to_idle_witness :
  exists w',
    run (typed (js "cats ")) (session [1; 2] (Some (js "dogs")) (typed (js "cats ")))
    = Some w'
    /\ State.isRecording (ui w') = false
    /\ State.isTranscribing (ui w') = false
    /\ recorders w' = [{| capturing := false; tracksLive := false |}]
    /\ State.topic (ui w') = js "cats dogs".
Proof.
  destruct (session_returns_to_idle [1; 2] (Some (js "dogs")) (typed (js "cats ")))
    as (w' & Hrun & Hr & Ht & Hrs & _ & _ & Htopic & _); [reflexivity | reflexivity |].
  exists w'. split; [exact Hrun|]. split; [exact Hr|]. split; [exact Ht|].
  split; [exact Hrs|]. rewrite Htopic. vm_compute. reflexivity.
Defined.

(** ** Splitting: the payload of a data URL and the text of a button *)

Lemma splitOn_without (sep : N) (s : jsstring) :
  ~ In sep s -> splitOn sep s = [s].
Proof.
  induction s as [|c s IH]; intros Hs; [reflexivity|]. simpl.
  destruct (N.eqb_spec c sep) as [->|_]; [destruct Hs; left; reflexivity|].
  rewrite IH; [reflexivity|]. intros H. apply Hs. right. exact H.
Qed.

Lemma splitOn_first (sep : N) (a b : jsstring) :
  ~ In sep a -> splitOn sep (a ++ sep :: b) = a :: splitOn sep b.
Proof.
  induction a as [|c a IH]; intros Ha; simpl.
  - rewrite N.eqb_refl. reflexivity.
  - destruct (N.eqb_spec c sep) as [->|_]; [destruct Ha; left; reflexivity|].
    rewrite IH; [reflexivity|]. intros H. apply Ha. right. exact H.
Qed.

(** [blobToBase64] resolves with what follows the first comma of the
    reader's result, up to the next comma if there is one: for a data URL
    whose header has no comma, with the payload when the payload has none
    (as base64 text), and with [undefined] when the result has no comma. *)
Theorem blobToBase64_strips_header (header payload : jsstring) :
  ~ In (ch ",") header ->
  (~ In (ch ",") payload ->
   blobToBase64_result (header ++ ch "," :: payload) = Some payload)
  /\ (forall more,
        ~ In (ch ",") payload ->
        blobToBase64_result (header ++ ch "," :: payload ++ ch "," :: more)
        = Some payload)
  /\ blobToBase64_result header = None.
Proof.
  intros Hheader. unfold blobToBase64_result. split; [|split].
  - intros Hpayload.
    rewrite splitOn_first, splitOn_without by assumption. reflexivity.
  - intros more Hpayload.
    rewrite splitOn_first, splitOn_first by assumption. reflexivity.
  - rewrite splitOn_without by assumption. reflexivity.
Qed.

Lemma blobToBase64_strips_header_witness :
  blobToBase64_result (js "data:audio/webm;base64,GkXfo59ChoEBQveBAULygQRC84EI")
  = Some (js "GkXfo59ChoEBQveBAULygQRC84EI").
Proof.
  apply (proj1 (blobToBase64_strips_header (js "data:audio/webm;base64")
                  (js "GkXfo59ChoEBQveBAULygQRC84EI")
                  ltac:(vm_compute; intuition discriminate))).
  vm_compute. intuition discriminate.
Defined.

(** The four length buttons show the first word of their labels, Short,
    Medium, Long and Extreme: texts that tell the four lengths apart. *)
Theorem length_buttons_show_first_word (l : YapLength) :
  lengthLabel l =
    match l with
    | SHORT => js "Short"
    | MEDIUM => js "Medium"
    | LONG => js "Long"
    | EXTREME => js "Extreme"
    end
  /\ (exists rest, YapLength_value l = lengthLabel l ++ 32 :: rest)
  /\ forall l', lengthLabel l' = lengthLabel l -> l' = l.
Proof.
  split; [destruct l; reflexivity|]. split.
  - destruct l; eexists; vm_compute; reflexivity.
  - intros l'. destruct l, l'; vm_compute; (reflexivity || discriminate).
Qed.

(** * The stored text: saving and loading *)

(** ** Decimal digits *)

Lemma digitsValue_acc (d : Decimal.uint) (acc : positive) :
  fold_left (fun a x => a * 10 + x) (uintDigits d) (N.pos acc)
  = N.pos (Pos.of_uint_acc d acc).
Proof.
  revert acc. induction d; intros acc; simpl; [reflexivity|..];
    rewrite <- IHd; f_equal; lia.
Qed.

Lemma digitsValue_uint (d : Decimal.uint) :
  digitsValue (uintDigits d) = N.of_uint d.
Proof.
  unfold digitsValue, N.of_uint.
  induction d; simpl; [reflexivity | exact IHd | ..]; apply digitsValue_acc.
Qed.

Lemma digitsValue_digitsOf (n : N) : digitsValue (digitsOf n) = n.
Proof. unfold digitsOf. rewrite digitsValue_uint. apply DecimalN.Unsigned.of_to. Qed.

Lemma uintDigits_lt (d : Decimal.uint) : Forall (fun x => x < 10) (uintDigits d).
Proof. induction d; simpl; constructor; (lia || assumption). Qed.

Lemma digitsOf_lt (n : N) : Forall (fun x => x < 10) (digitsOf n).
Proof. apply uintDigits_lt. Qed.

Lemma uintDigits_uintOfDigits (ds : list N) :
  Forall (fun x => x < 10) ds -> uintDigits (uintOfDigits ds) = ds.
Proof.
  induction 1 as [|d ds Hd _ IH]; [reflexivity|].
  assert (d = 0 \/ d = 1 \/ d = 2 \/ d = 3 \/ d = 4 \/ d = 5 \/ d = 6 \/ d = 7
          \/ d = 8 \/ d = 9) as Hcases by lia.
  simpl. repeat (destruct Hcases as [-> | Hcases]; [simpl; f_equal; exact IH|]).
  subst d. simpl. f_equal. exact IH.
Qed.

Lemma nzhead_not_D0 (d d' : Decimal.uint) : Decimal.nzhead d <> Decimal.D0 d'.
Proof. induction d; simpl; try discriminate. exact IHd. Qed.

(** A numeral that is its own normal form is 0 or starts with another
    digit. *)
Lemma unorm_fixed_head (d : Decimal.uint) :
  Decimal.unorm d = d ->
  uintDigits d = [0] \/ exists x rest, uintDigits d = x :: rest /\ x <> 0.
Proof.
  destruct d; simpl; try discriminate;
    try (intros _; right; eexists _, _; split; [reflexivity | lia]).
  intros H. left. change (Decimal.unorm d = Decimal.D0 d) in H || idtac.
  unfold Decimal.unorm in H. simpl in H.
  destruct (Decimal.nzhead d) eqn:Hd; try discriminate;
    try (injection H as <-; reflexivity).
  exfalso. apply (nzhead_not_D0 d d). rewrite Hd. exact H.
Qed.

Lemma digitsOf_head (n : N) :
  digitsOf n = [0] \/ exists x rest, digitsOf n = x :: rest /\ x <> 0.
Proof.
  apply unorm_fixed_head. rewrite <- (DecimalN.Unsigned.to_of (N.to_uint n)).
  rewrite DecimalN.Unsigned.of_to. reflexivity.
Qed.

Lemma digitsOf_nonzero (n : N) :
  n <> 0 -> exists x rest, digitsOf n = x :: rest /\ x <> 0.
Proof.
  intros Hn. destruct (digitsOf_head n) as [H | H]; [|exact H].
  destruct Hn. rewrite <- (digitsValue_digitsOf n), H. reflexivity.
Qed.

Lemma digitsValue_app (a b : list N) :
  digitsValue (a ++ b) = fold_left (fun acc d => acc * 10 + d) b (digitsValue a).
Proof. unfold digitsValue. apply fold_left_app. Qed.

Lemma digitsValue_zero_head (ds : list N) : digitsValue (0 :: ds) = digitsValue ds.
Proof. reflexivity. Qed.

Lemma digitsValue_leading (ds : list N) :
  digitsValue (dropWhile (N.eqb 0) ds) = digitsValue ds.
Proof.
  induction ds as [|d ds IH]; [reflexivity|]. simpl.
  destruct d; [exact IH | reflexivity].
Qed.

(** The digits of the value of a numeral without leading zero. *)
Lemma digitsOf_digitsValue (x : N) (rest : list N) :
  Forall (fun d => d < 10) (x :: rest) -> x <> 0 ->
  digitsOf (digitsValue (x :: rest)) = x :: rest.
Proof.
  intros Hlt Hx.
  rewrite <- (uintDigits_uintOfDigits (x :: rest) Hlt) at 1.
  rewrite digitsValue_uint. unfold digitsOf. rewrite DecimalN.Unsigned.to_of.
  rewrite <- (uintDigits_uintOfDigits (x :: rest) Hlt) at 2. f_equal.
  inversion Hlt as [|? ? Hx10 _]; subst.
  assert (x = 1 \/ x = 2 \/ x = 3 \/ x = 4 \/ x = 5 \/ x = 6 \/ x = 7
          \/ x = 8 \/ x = 9) as Hcases by lia.
  repeat (destruct Hcases as [-> | Hcases]; [reflexivity|]). subst x. reflexivity.
Qed.

Lemma rev_repeat {A} (x : A) (n : nat) : rev (repeat x n) = repeat x n.
Proof.
  induction n as [|n IH]; [reflexivity|].
  simpl. rewrite IH. symmetry. apply repeat_cons.
Qed.

Lemma dropWhile_zeros (k : nat) (l : list N) :
  dropWhile (N.eqb 0) (repeat 0 k ++ l) = dropWhile (N.eqb 0) l.
Proof. induction k as [|k IH]; [reflexivity | exact IH]. Qed.

Lemma digitsValue_zeros (j : nat) (ds : list N) :
  digitsValue (repeat 0 j ++ ds) = digitsValue ds.
Proof. induction j as [|j IH]; [reflexivity | exact IH]. Qed.

(** [decimal] on digits between leading and trailing zeros. *)
Lemma decimal_zeros (negative : bool) (j k : nat) (init : list N) (x : N) (exp : Z) :
  x <> 0 -> digitsValue (init ++ [x]) <> 0 ->
  decimal negative (repeat 0 j ++ (init ++ [x]) ++ repeat 0 k) exp
  = JNum (if negative then - Z.of_N (digitsValue (init ++ [x]))
          else Z.of_N (digitsValue (init ++ [x])))%Z
         (exp + Z.of_nat k)%Z.
Proof.
  intros Hx Hvalue. unfold decimal.
  assert (rev (dropWhile (N.eqb 0) (rev (repeat 0 j ++ (init ++ [x]) ++ repeat 0 k)))
          = repeat 0 j ++ init ++ [x]) as ->.
  { rewrite !rev_app_distr, !rev_repeat. simpl rev.
    rewrite <- !app_assoc, dropWhile_zeros. simpl.
    destruct x as [|p]; [congruence|]. simpl.
    rewrite rev_app_distr, rev_repeat, rev_involutive, <- app_assoc.
    reflexivity. }
  rewrite digitsValue_zeros.
  destruct (Z.eqb_spec (Z.of_N (digitsValue (init ++ [x]))) 0) as [H0|_]; [lia|].
  f_equal. f_equal. rewrite !length_app, !repeat_length. simpl. lia.
Qed.

Lemma spanDigits_cons (c : N) (s : list N) :
  spanDigits (c :: s) =
    if isDigit c then let (ds, rest) := spanDigits s in (c - 48 :: ds, rest)
    else ([], c :: s).
Proof. reflexivity. Qed.

Lemma spanDigits_digitChars (ds : list N) (rest : list N) :
  Forall (fun d => d < 10) ds ->
  match rest with c :: _ => isDigit c = false | [] => True end ->
  spanDigits (digitChars ds ++ rest) = (ds, rest).
Proof.
  intros Hds Hrest. induction Hds as [|d ds Hd _ IH].
  - destruct rest as [|c rest]; [reflexivity|].
    change (digitChars [] ++ c :: rest) with (c :: rest).
    rewrite spanDigits_cons, Hrest. reflexivity.
  - change (digitChars (d :: ds) ++ rest) with ((48 + d) :: (digitChars ds ++ rest)).
    rewrite spanDigits_cons, IH.
    assert (isDigit (48 + d) = true) as ->
      by (unfold isDigit; rewrite andb_true_iff, !N.leb_le; lia).
    f_equal. f_equal. lia.
Qed.

Lemma digitChars_numberChars (ds : list N) :
  Forall (fun d => d < 10) ds -> forallb isNumberChar (digitChars ds) = true.
Proof.
  induction 1 as [|d ds Hd _ IH]; [reflexivity|]. simpl. rewrite IH.
  unfold isNumberChar, isDigit.
  assert ((48 <=? 48 + d) && (48 + d <=? 57) = true) as ->
    by (rewrite andb_true_iff, !N.leb_le; lia).
  reflexivity.
Qed.

(** The digits of a canonical mantissa. *)
Lemma canonical_digits (m e : Z) :
  canonical m e = true -> m <> 0%Z ->
  exists x rest init y,
    digitsOf (Z.abs_N m) = x :: rest /\ x <> 0
    /\ digitsOf (Z.abs_N m) = init ++ [y] /\ y <> 0.
Proof.
  unfold canonical. intros H Hm.
  destruct (Z.eqb_spec m 0) as [|_]; [contradiction|].
  destruct (digitsOf_nonzero (Z.abs_N m)) as (x & rest & Hds & Hx); [lia|].
  exists x, rest, (removelast (digitsOf (Z.abs_N m))), (List.last (digitsOf (Z.abs_N m)) 0).
  split; [exact Hds|]. split; [exact Hx|]. split.
  - apply app_removelast_last. rewrite Hds. discriminate.
  - intros H0. rewrite H0 in H. discriminate.
Qed.

Lemma parseNumber_sign (negative : bool) (d : N) (ds : list N) (tail : jsstring) :
  d < 10 ->
  parseNumber (signText negative ++ digitChars (d :: ds) ++ tail)
  = (let (int, s2) := spanDigits (digitChars (d :: ds) ++ tail) in
     let intOk :=
       match int with
       | [] => false
       | [_] => true
       | d :: _ => negb (d =? 0)
       end in
     let '(frac, fracOk, s3) :=
       match s2 with
       | c :: s' =>
           if c =? ch "." then
             let (ds, rest) := spanDigits s' in (ds, truthy ds, rest)
           else ([], true, s2)
       | [] => ([], true, s2)
       end in
     let '(exp, expOk, s4) :=
       match s3 with
       | c :: s' =>
           if (c =? ch "e") || (c =? ch "E") then
             let (expNegative, s'') :=
               match s' with
               | d :: t =>
                   if d =? ch "-" then (true, t)
                   else if d =? ch "+" then (false, t) else (false, s')
               | [] => (false, s')
               end in
             let (ds, rest) := spanDigits s'' in
             let n := Z.of_N (digitsValue ds) in
             (if expNegative then (- n)%Z else n, truthy ds, rest)
           else (0%Z, true, s3)
       | [] => (0%Z, true, s3)
       end in
     if intOk && fracOk && expOk && negb (truthy s4)
     then Some (decimal negative (int ++ frac) (exp - Z.of_nat (List.length frac))%Z)
     else None).
Proof.
  intros Hd. destruct negative.
  - reflexivity.
  - unfold parseNumber, signText.
    change ([] ++ digitChars (d :: ds) ++ tail)
      with ((48 + d) :: (digitChars ds ++ tail)).
    assert ((48 + d =? ch "-") = false) as Hsign
      by (apply N.eqb_neq; change (ch "-") with 45; lia).
    cbv beta iota. rewrite Hsign. reflexivity.
Qed.

Lemma intPart_ok (int : list N) :
  intPart int ->
  match int with
  | [] => false
  | [_] => true
  | d :: _ => negb (d =? 0)
  end = true.
Proof.
  intros (_ & x & rest & -> & [-> | Hx]); [reflexivity|].
  destruct rest; [reflexivity|]. apply negb_true_iff, N.eqb_neq, Hx.
Qed.

(** The text of an integer is read as its digits. *)
Lemma parseNumber_integer (negative : bool) (int : list N) :
  intPart int ->
  parseNumber (signText negative ++ digitChars int)
  = Some (decimal negative int 0).
Proof.
  intros Hint. pose proof (intPart_ok int Hint) as Hok.
  destruct Hint as (Hlt & x & rest & -> & Hhead).
  rewrite <- (app_nil_r (digitChars (x :: rest))).
  rewrite parseNumber_sign by (inversion Hlt; assumption).
  rewrite spanDigits_digitChars by (exact Hlt || exact I).
  cbv beta iota zeta. rewrite Hok. simpl. rewrite app_nil_r. reflexivity.
Qed.

(** The text of a number with a fraction is read as the digits of both
    parts, scaled by the length of the fraction. *)
Lemma parseNumber_fraction (negative : bool) (int frac : list N) :
  intPart int -> Forall (fun d => d < 10) frac -> frac <> [] ->
  parseNumber (signText negative ++ digitChars int ++ ch "." :: digitChars frac)
  = Some (decimal negative (int ++ frac) (- Z.of_nat (List.length frac))).
Proof.
  intros Hint Hfrac Hnonempty. pose proof (intPart_ok int Hint) as Hok.
  destruct Hint as (Hlt & x & rest & -> & Hhead).
  rewrite parseNumber_sign by (inversion Hlt; assumption).
  rewrite spanDigits_digitChars by (exact Hlt || reflexivity).
  cbv beta iota zeta. rewrite Hok.
  change (ch "." =? ch ".") with true. cbv beta iota.
  rewrite <- (app_nil_r (digitChars frac)).
  rewrite spanDigits_digitChars by (exact Hfrac || exact I).
  cbv beta iota zeta.
  assert (truthy frac = true) as -> by (apply truthy_true, Hnonempty).
  simpl. reflexivity.
Qed.

Lemma repeat_zero_lt (k : nat) : Forall (fun d => d < 10) (repeat 0 k).
Proof. induction k; simpl; constructor; (lia || assumption). Qed.

Lemma decimal_trailing (negative : bool) (k : nat) (init : list N) (x : N) (exp : Z) :
  x <> 0 -> digitsValue (init ++ [x]) <> 0 ->
  decimal negative ((init ++ [x]) ++ repeat 0 k) exp
  = JNum (if negative then - Z.of_N (digitsValue (init ++ [x]))
          else Z.of_N (digitsValue (init ++ [x])))%Z
         (exp + Z.of_nat k)%Z.
Proof. apply (decimal_zeros negative 0 k). Qed.

Lemma decimal_leading (negative : bool) (j : nat) (init : list N) (x : N) (exp : Z) :
  x <> 0 -> digitsValue (init ++ [x]) <> 0 ->
  decimal negative (repeat 0 j ++ init ++ [x]) exp
  = JNum (if negative then - Z.of_N (digitsValue (init ++ [x]))
          else Z.of_N (digitsValue (init ++ [x])))%Z
         exp.
Proof.
  intros Hx Hnz.
  replace (repeat 0 j ++ init ++ [x])
    with (repeat 0 j ++ (init ++ [x]) ++ repeat 0 0)
    by (simpl; rewrite List.app_nil_r; reflexivity).
  rewrite (decimal_zeros negative j 0 init x exp Hx Hnz). f_equal. lia.
Qed.

(** The text of a canonical number is read back as that number. *)
Lemma parseNumber_numberToString (m e : Z) :
  canonical m e = true -> parseNumber (numberToString m e) = Some (JNum m e).
Proof.
  intros Hcanonical. destruct (Z.eq_dec m 0) as [-> | Hm].
  { unfold canonical in Hcanonical. simpl in Hcanonical.
    apply Z.eqb_eq in Hcanonical. subst e. reflexivity. }
  destruct (canonical_digits m e Hcanonical Hm)
    as (x & rest & init & y & Hhead & Hx & Hlast & Hy).
  pose proof (digitsOf_lt (Z.abs_N m)) as Hlt.
  pose proof (digitsValue_digitsOf (Z.abs_N m)) as Hvalue.
  assert (forall k : Z,
             JNum (if (m <? 0)%Z then - Z.of_N (digitsValue (init ++ [y]))
                   else Z.of_N (digitsValue (init ++ [y])))%Z k = JNum m k) as Hm'.
  { intros k. f_equal. rewrite <- Hlast, Hvalue, Zabs2N.id_abs.
    destruct (Z.ltb_spec m 0); lia. }
  assert (digitsValue (init ++ [y]) <> 0) as Hnz
    by (rewrite <- Hlast, Hvalue; destruct m; [congruence | discriminate..]).
  unfold numberToString.
  change (if (m <? 0)%Z then [ch "-"] else []) with (signText (m <? 0)%Z).
  set (ds := digitsOf (Z.abs_N m)) in *.
  destruct (Z.leb_spec 0 e) as [He | He].
  - rewrite parseNumber_integer.
    + rewrite Hlast.
      rewrite (decimal_trailing (m <? 0)%Z (Z.to_nat e) init y 0 Hy Hnz), Hm'.
      do 2 f_equal. lia.
    + split; [apply Forall_app; split; [exact Hlt | apply repeat_zero_lt]|].
      exists x, (rest ++ repeat 0 (Z.to_nat e)). rewrite Hhead. split; [reflexivity|].
      right. exact Hx.
  - destruct (Nat.ltb_spec (Z.to_nat (- e)) (List.length ds)) as [Hk | Hk].
    + change (?a ++ [ch "."] ++ ?b) with (a ++ ch "." :: b).
      rewrite parseNumber_fraction.
      * rewrite take_drop, length_drop. rewrite Hlast at 1.
        rewrite (decimal_leading (m <? 0)%Z 0 init y _ Hy Hnz), Hm'.
        do 2 f_equal. lia.
      * split; [apply Forall_take, Hlt|].
        destruct (List.length ds - Z.to_nat (- e))%nat as [|j] eqn:Hj; [lia|].
        rewrite Hhead. exists x, (take j rest). split; [reflexivity|].
        right. exact Hx.
      * apply Forall_drop, Hlt.
      * intros Hnil. apply (f_equal (@List.length N)) in Hnil.
        rewrite length_drop in Hnil. simpl in Hnil. lia.
    + change (js "0." ++ ?b) with (digitChars [0] ++ ch "." :: b).
      rewrite parseNumber_fraction.
      * rewrite length_app, repeat_length.
        change ([0] ++ repeat 0 (Z.to_nat (- e) - List.length ds) ++ ds)
          with (repeat 0 (S (Z.to_nat (- e) - List.length ds)) ++ ds).
        rewrite Hlast at 2.
        rewrite (decimal_leading (m <? 0)%Z _ init y _ Hy Hnz), Hm'.
        do 2 f_equal. lia.
      * split; [repeat constructor; lia|]. exists 0, []. split; [reflexivity | left; reflexivity].
      * apply Forall_app. split; [apply repeat_zero_lt | exact Hlt].
      * rewrite Hhead. destruct (repeat 0 _); discriminate.
Qed.

Lemma Forall_dropWhile {A} (P : A -> Prop) (p : A -> bool) (l : list A) :
  Forall P l -> Forall P (dropWhile p l).
Proof.
  induction 1 as [|x l Hx Hl IH]; simpl; [constructor|].
  destruct (p x); [exact IH | constructor; assumption].
Qed.

Lemma dropWhile_suffix {A} (p : A -> bool) (l : list A) :
  exists pre, l = pre ++ dropWhile p l.
Proof.
  induction l as [|x l [pre IH]]; simpl; [exists []; reflexivity|].
  destruct (p x); [exists (x :: pre); simpl; f_equal; exact IH | exists []; reflexivity].
Qed.

Lemma last_app_cons {A} (pre : list A) (x : A) (rest : list A) (d : A) :
  List.last (pre ++ x :: rest) d = List.last (x :: rest) d.
Proof.
  induction pre as [|p pre IH]; [reflexivity|].
  rewrite <- IH. change ((p :: pre) ++ x :: rest) with (p :: (pre ++ x :: rest)).
  destruct (pre ++ x :: rest) eqn:H; [destruct pre; discriminate | reflexivity].
Qed.

(** What [decimal] returns is canonical. *)
Lemma decimal_canonical (negative : bool) (ds : list N) (exp : Z) :
  Forall (fun d => d < 10) ds ->
  exists m e, decimal negative ds exp = JNum m e /\ canonical m e = true.
Proof.
  intros Hlt. unfold decimal.
  set (sig := rev (dropWhile (N.eqb 0) (rev ds))).
  destruct (Z.eqb_spec (Z.of_N (digitsValue sig)) 0) as [_ | Hnz];
    [exists 0%Z, 0%Z; split; reflexivity|].
  eexists _, _. split; [reflexivity|]. unfold canonical.
  assert (Z.abs_N (if negative then - Z.of_N (digitsValue sig)
                   else Z.of_N (digitsValue sig)) = digitsValue sig) as ->
    by (destruct negative; rewrite ?Zabs2N.inj_opp; apply Zabs2N.id).
  destruct (Z.eqb_spec (if negative then (- Z.of_N (digitsValue sig))%Z
                        else Z.of_N (digitsValue sig)) 0) as [H0 | _];
    [destruct negative; lia|].
  apply negb_true_iff, N.eqb_neq.
  assert (Forall (fun d => d < 10) sig) as Hsig
    by (subst sig; apply Forall_rev, Forall_dropWhile, Forall_rev, Hlt).
  assert (exists init y, sig = init ++ [y] /\ y <> 0) as (init & y & Hsig_eq & Hy).
  { subst sig. destruct (dropWhile (N.eqb 0) (rev ds)) as [|y l] eqn:Hdrop.
    - destruct Hnz. reflexivity.
    - exists (rev l), y. split; [reflexivity|].
      apply dropWhile_head in Hdrop. apply N.eqb_neq in Hdrop. congruence. }
  rewrite <- digitsValue_leading in Hnz |- *.
  pose proof (Forall_dropWhile _ (N.eqb 0) sig Hsig) as Hlead.
  destruct (dropWhile_suffix (N.eqb 0) sig) as [pre Hpre].
  destruct (dropWhile (N.eqb 0) sig) as [|x rest] eqn:Hdrop; [destruct Hnz; reflexivity|].
  rewrite digitsOf_digitsValue;
    [|exact Hlead | apply dropWhile_head in Hdrop; apply N.eqb_neq in Hdrop; congruence].
  rewrite <- (last_app_cons pre x rest 0), <- Hpre, Hsig_eq, last_last. exact Hy.
Qed.

Lemma numberOfZ_storable (z : Z) : storable (numberOfZ z) = true.
Proof.
  destruct (decimal_canonical (z <? 0)%Z (digitsOf (Z.abs_N z)) 0 (digitsOf_lt _))
    as (m & e & Heq & Hcanonical).
  unfold numberOfZ. rewrite Heq. exact Hcanonical.
Qed.

(** ** Lexing the text of a value *)

Lemma lex_cons (st : LexState) (c : N) (s : list N) :
  lex st (c :: s) =
    match lexStep st c with
    | Some (st', toks) => option_map (app toks) (lex st' s)
    | None => None
    end.
Proof. reflexivity. Qed.

Lemma option_map_app {A} (a b : list A) (x : option (list A)) :
  option_map (app a) (option_map (app b) x) = option_map (app (a ++ b)) x.
Proof. destruct x; simpl; [rewrite app_assoc|]; reflexivity. Qed.

Lemma option_map_nil {A} (x : option (list A)) : option_map (app []) x = x.
Proof. destruct x; reflexivity. Qed.

Lemma closes_cases (rest : jsstring) :
  closes rest = true ->
  rest = [] \/ exists c rest', rest = c :: rest' /\ (c = 44 \/ c = 93 \/ c = 125).
Proof.
  destruct rest as [|c rest']; [left; reflexivity|]. simpl. intros H. right.
  exists c, rest'. split; [reflexivity|].
  change (ch ",") with 44 in H. change (ch "]") with 93 in H.
  change (ch "}") with 125 in H.
  rewrite !orb_true_iff, !N.eqb_eq in H. tauto.
Qed.

(** A word or a number ends where the value may end. *)
Lemma lex_word_end (seen : list N) (v : JSValue) (rest : jsstring) :
  closes rest = true -> parseWord (rev seen) = Some v ->
  lex (LWord seen) rest = option_map (app [TScalar v]) (lex LBetween rest).
Proof.
  intros [-> | (c & rest' & -> & Hc)]%closes_cases Hword.
  - simpl. rewrite Hword. reflexivity.
  - rewrite !lex_cons.
    destruct Hc as [-> | [-> | ->]]; simpl; rewrite Hword; simpl;
      destruct (lex LBetween rest'); reflexivity.
Qed.

Lemma lex_number_end (seen : list N) (v : JSValue) (rest : jsstring) :
  closes rest = true -> parseNumber (rev seen) = Some v ->
  lex (LNumber seen) rest = option_map (app [TScalar v]) (lex LBetween rest).
Proof.
  intros [-> | (c & rest' & -> & Hc)]%closes_cases Hnumber.
  - simpl. rewrite Hnumber. reflexivity.
  - rewrite !lex_cons.
    destruct Hc as [-> | [-> | ->]]; simpl; rewrite Hnumber; simpl;
      destruct (lex LBetween rest'); reflexivity.
Qed.

Lemma lex_number_chars (cs seen : list N) (rest : jsstring) :
  forallb isNumberChar cs = true ->
  lex (LNumber seen) (cs ++ rest) = lex (LNumber (rev cs ++ seen)) rest.
Proof.
  revert seen. induction cs as [|c cs IH]; intros seen Hcs; [reflexivity|].
  simpl in Hcs. apply andb_true_iff in Hcs as [Hc Hcs].
  change ((c :: cs) ++ rest) with (c :: (cs ++ rest)).
  rewrite lex_cons. simpl lexStep. rewrite Hc. rewrite option_map_nil, IH by exact Hcs.
  simpl. rewrite <- app_assoc. reflexivity.
Qed.

(** Where [parseNumber] succeeds the text starts with a minus or a digit. *)
Lemma parseNumber_first (c : N) (cs : list N) (v : JSValue) :
  parseNumber (c :: cs) = Some v -> isDigit c || (c =? ch "-") = true.
Proof.
  unfold parseNumber.
  destruct (c =? ch "-") eqn:Hminus; [intros _; apply orb_true_r|].
  rewrite spanDigits_cons.
  destruct (isDigit c) eqn:Hdigit; [intros _; reflexivity|].
  cbn [andb negb].
  destruct (c =? ch ".").
  - destruct (spanDigits cs) as [frac s3]. cbn [andb].
    destruct s3 as [|c3 s3]; [discriminate|].
    destruct ((c3 =? ch "e") || (c3 =? ch "E")); [|discriminate].
    destruct s3 as [|d t]; [destruct (spanDigits []); discriminate|].
    destruct (d =? ch "-"); [destruct (spanDigits t); discriminate|].
    destruct (d =? ch "+"); [destruct (spanDigits t); discriminate|].
    destruct (spanDigits (d :: t)); discriminate.
  - cbn [andb].
    destruct ((c =? ch "e") || (c =? ch "E")); [|discriminate].
    destruct cs as [|d t]; [destruct (spanDigits []); discriminate|].
    destruct (d =? ch "-"); [destruct (spanDigits t); discriminate|].
    destruct (d =? ch "+"); [destruct (spanDigits t); discriminate|].
    destruct (spanDigits (d :: t)); discriminate.
Qed.

Lemma lexStart_number (c : N) :
  isDigit c || (c =? ch "-") = true -> lexStart c = Some (LNumber [c], []).
Proof.
  intros H.
  assert (c = 45 \/ c = 48 \/ c = 49 \/ c = 50 \/ c = 51 \/ c = 52 \/ c = 53
          \/ c = 54 \/ c = 55 \/ c = 56 \/ c = 57) as Hcases.
  { unfold isDigit in H. change (ch "-") with 45 in H.
    rewrite orb_true_iff, andb_true_iff, !N.leb_le, N.eqb_eq in H. lia. }
  repeat (destruct Hcases as [-> | Hcases]; [reflexivity|]). subst c. reflexivity.
Qed.

(** The text of a number, where a value may end, is one token. *)
Lemma lex_number (text : jsstring) (v : JSValue) (rest : jsstring) :
  parseNumber text = Some v -> forallb isNumberChar text = true ->
  closes rest = true ->
  lex LBetween (text ++ rest) = option_map (app [TScalar v]) (lex LBetween rest).
Proof.
  intros Hparse Hchars Hrest. destruct text as [|c cs]; [discriminate Hparse|].
  change ((c :: cs) ++ rest) with (c :: (cs ++ rest)).
  rewrite lex_cons. simpl lexStep.
  rewrite (lexStart_number c (parseNumber_first c cs v Hparse)).
  simpl in Hchars. apply andb_true_iff in Hchars as [_ Hcs].
  rewrite option_map_nil, lex_number_chars by exact Hcs.
  apply lex_number_end; [exact Hrest|].
  rewrite rev_app_distr, rev_involutive. exact Hparse.
Qed.

Lemma numberToString_chars (m e : Z) :
  forallb isNumberChar (numberToString m e) = true.
Proof.
  unfold numberToString.
  assert (forallb isNumberChar (if (m <? 0)%Z then [ch "-"] else []) = true) as Hsign
    by (destruct (m <? 0)%Z; reflexivity).
  pose proof (digitsOf_lt (Z.abs_N m)) as Hlt.
  destruct (0 <=? e)%Z; [|destruct (_ <? _)%nat];
    rewrite !forallb_app, Hsign; simpl;
    rewrite ?digitChars_numberChars; try reflexivity.
  - apply Forall_app. split; [exact Hlt | apply repeat_zero_lt].
  - apply Forall_drop, Hlt.
  - apply Forall_take, Hlt.
  - apply Forall_app. split; [apply repeat_zero_lt | exact Hlt].
Qed.

(** ** Lexing a quoted string *)

Lemma lexStep_plain (seen : list N) (c : N) :
  32 <= c -> c <> 34 -> c <> 92 ->
  lexStep (LString seen) c = Some (LString (c :: seen), []).
Proof.
  intros H32 H34 H92. simpl.
  rewrite (proj2 (N.eqb_neq c 34) H34), (proj2 (N.eqb_neq c 92) H92).
  rewrite (proj2 (N.ltb_ge c 32) H32). reflexivity.
Qed.

Lemma hexValue_hexDigit (d : N) : d < 16 -> hexValue (hexDigit d) = Some d.
Proof.
  intros Hd.
  assert (d = 0 \/ d = 1 \/ d = 2 \/ d = 3 \/ d = 4 \/ d = 5 \/ d = 6 \/ d = 7
          \/ d = 8 \/ d = 9 \/ d = 10 \/ d = 11 \/ d = 12 \/ d = 13 \/ d = 14
          \/ d = 15) as Hcases by lia.
  repeat (destruct Hcases as [-> | Hcases]; [reflexivity|]). subst d. reflexivity.
Qed.

Lemma hex_digits (c : N) :
  c < 65536 ->
  (((0 * 16 + c / 4096 mod 16) * 16 + c / 256 mod 16) * 16 + c / 16 mod 16) * 16
  + c mod 16 = c.
Proof.
  intros Hc.
  pose proof (N.div_mod c 16 ltac:(lia)) as H0.
  pose proof (N.div_mod (c / 16) 16 ltac:(lia)) as H1.
  pose proof (N.div_mod (c / 16 / 16) 16 ltac:(lia)) as H2.
  rewrite N.Div0.div_div in H1, H2. rewrite N.Div0.div_div in H2.
  change (16 * 16) with 256 in *. change (256 * 16) with 4096 in *.
  assert (c / 4096 < 16) as H3 by (apply N.Div0.div_lt_upper_bound; lia).
  rewrite (N.mod_small (c / 4096) 16 H3). lia.
Qed.

Lemma lex_escape_u (seen : list N) (more : jsstring) :
  lex (LString seen) (92 :: 117 :: more) = lex (LHex seen 0 0) more.
Proof.
  rewrite lex_cons.
  change (lexStep (LString seen) 92) with (Some (LEscape seen, @nil Token)).
  cbv beta iota. rewrite lex_cons.
  change (lexStep (LEscape seen) 117) with (Some (LHex seen 0 0, @nil Token)).
  cbv beta iota. rewrite !option_map_nil. reflexivity.
Qed.

Lemma lex_hex (seen : list N) (count : nat) (code d : N) (more : jsstring) :
  d < 16 ->
  lex (LHex seen count code) (hexDigit d :: more)
  = if (count =? 3)%nat then lex (LString (code * 16 + d :: seen)) more
    else lex (LHex seen (S count) (code * 16 + d)) more.
Proof.
  intros Hd. rewrite lex_cons. cbn [lexStep]. rewrite hexValue_hexDigit by exact Hd.
  destruct (count =? 3)%nat; apply option_map_nil.
Qed.

(** The escape of a code unit is read as that code unit. *)
Lemma lex_unicodeEscape (seen : list N) (c : N) (more : jsstring) :
  c < 65536 ->
  lex (LString seen) (unicodeEscape c ++ more) = lex (LString (c :: seen)) more.
Proof.
  intros Hc. unfold unicodeEscape.
  change ([92; ch "u"; ?a; ?b; ?d; ?e] ++ more)
    with (92 :: 117 :: a :: b :: d :: e :: more).
  rewrite lex_escape_u.
  rewrite !lex_hex by (apply N.mod_lt; lia). cbn [Nat.eqb].
  rewrite hex_digits by exact Hc. reflexivity.
Qed.

Lemma lex_escape_char (seen : list N) (e c : N) (more : jsstring) :
  lexStep (LEscape seen) e = Some (LString (c :: seen), []) ->
  lex (LString seen) (92 :: e :: more) = lex (LString (c :: seen)) more.
Proof.
  intros He. rewrite lex_cons.
  change (lexStep (LString seen) 92) with (Some (LEscape seen, @nil Token)).
  cbv beta iota. rewrite lex_cons, He, !option_map_nil. reflexivity.
Qed.

Lemma lex_quoteUnit (seen : list N) (c : N) (more : jsstring) :
  lex (LString seen) (quoteUnit c ++ more) = lex (LString (c :: seen)) more.
Proof.
  unfold quoteUnit.
  destruct (N.eqb_spec c 8) as [-> | H8];
    [apply (lex_escape_char seen 98 8 more); reflexivity|].
  destruct (N.eqb_spec c 9) as [-> | H9];
    [apply (lex_escape_char seen 116 9 more); reflexivity|].
  destruct (N.eqb_spec c 10) as [-> | H10];
    [apply (lex_escape_char seen 110 10 more); reflexivity|].
  destruct (N.eqb_spec c 12) as [-> | H12];
    [apply (lex_escape_char seen 102 12 more); reflexivity|].
  destruct (N.eqb_spec c 13) as [-> | H13];
    [apply (lex_escape_char seen 114 13 more); reflexivity|].
  destruct (N.eqb_spec c 34) as [-> | H34];
    [apply (lex_escape_char seen 34 34 more); reflexivity|].
  destruct (N.eqb_spec c 92) as [-> | H92];
    [apply (lex_escape_char seen 92 92 more); reflexivity|].
  destruct ((c <? 32) || isHighSurrogate c || isLowSurrogate c) eqn:Hescape.
  - apply lex_unicodeEscape.
    unfold isHighSurrogate, isLowSurrogate in Hescape.
    rewrite !orb_true_iff, !andb_true_iff, N.ltb_lt, !N.leb_le in Hescape. lia.
  - change ([c] ++ more) with (c :: more). rewrite lex_cons, lexStep_plain.
    + apply option_map_nil.
    + rewrite !orb_false_iff, N.ltb_ge in Hescape. lia.
    + exact H34.
    + exact H92.
Qed.

(** The characters of a quoted string up to the closing quote are read as
    the string. *)
Lemma lex_quoteUnits (n : nat) (s : jsstring) (seen : list N) (rest : jsstring) :
  (List.length s <= n)%nat ->
  lex (LString seen) (quoteUnits s ++ 34 :: rest)
  = option_map (app [TScalar (JStr (rev seen ++ s))]) (lex LBetween rest).
Proof.
  revert s seen. induction n as [|n IH]; intros s seen Hlen.
  - destruct s; [|simpl in Hlen; lia]. simpl. rewrite List.app_nil_r. reflexivity.
  - destruct s as [|c [|d s]].
    + simpl. rewrite List.app_nil_r. reflexivity.
    + change (quoteUnits [c]) with (quoteUnit c).
      rewrite lex_quoteUnit. simpl. reflexivity.
    + change (quoteUnits (c :: d :: s))
        with (if isHighSurrogate c && isLowSurrogate d
              then c :: d :: quoteUnits s
              else quoteUnit c ++ quoteUnits (d :: s)).
      destruct (isHighSurrogate c && isLowSurrogate d) eqn:Hpair.
      * unfold isHighSurrogate, isLowSurrogate in Hpair.
        rewrite !andb_true_iff, !N.leb_le in Hpair.
        change ((c :: d :: quoteUnits s) ++ 34 :: rest)
          with (c :: d :: (quoteUnits s ++ 34 :: rest)).
        rewrite lex_cons, lexStep_plain by lia. rewrite option_map_nil.
        rewrite lex_cons, lexStep_plain by lia. rewrite option_map_nil.
        rewrite IH by (simpl in Hlen; lia).
        simpl. rewrite <- !app_assoc. reflexivity.
      * rewrite <- app_assoc, lex_quoteUnit.
        rewrite IH by (simpl in Hlen |- *; lia).
        simpl. rewrite <- app_assoc. reflexivity.
Qed.

Lemma lex_string (s : jsstring) (rest : jsstring) :
  lex LBetween (quoteJSONString s ++ rest)
  = option_map (app [TScalar (JStr s)]) (lex LBetween rest).
Proof.
  unfold quoteJSONString.
  change ((34 :: quoteUnits s ++ [34]) ++ rest)
    with (34 :: ((quoteUnits s ++ [34]) ++ rest)).
  rewrite lex_cons.
  change (lexStep LBetween 34) with (Some (LString [], @nil Token)).
  cbv beta iota. rewrite option_map_nil, <- app_assoc.
  apply (lex_quoteUnits (List.length s) s [] rest). lia.
Qed.

(** ** Induction on JSON values *)

Lemma JSValue_induction (P : JSValue -> Prop) :
  P JNull -> (forall b, P (JBool b)) -> (forall m e, P (JNum m e)) ->
  (forall s, P (JStr s)) ->
  (forall elems, Forall P elems -> P (JArr elems)) ->
  (forall members, Forall (fun kv => P kv.2) members -> P (JObj members)) ->
  forall v, P v.
Proof.
  intros Hnull Hbool Hnum Hstr Harr Hobj.
  fix IH 1. intros [| b | m e | s | elems | members].
  - exact Hnull.
  - apply Hbool.
  - apply Hnum.
  - apply Hstr.
  - apply Harr. induction elems as [|v elems IHelems]; constructor.
    + apply IH.
    + exact IHelems.
  - apply Hobj. induction members as [|[k v] members IHmembers]; constructor.
    + apply IH.
    + exact IHmembers.
Qed.

(** ** Lexing the text of any value *)

Lemma lex_punctuation (c : N) (tok : Token) (rest : jsstring) :
  lexStart c = Some (LBetween, [tok]) ->
  lex LBetween (c :: rest) = option_map (app [tok]) (lex LBetween rest).
Proof. intros H. rewrite lex_cons. simpl lexStep. rewrite H. reflexivity. Qed.

(** Texts joined by commas and closed by a bracket or brace. *)
Lemma lex_joined (close : N) (closeTok : Token) (parts : list (jsstring * list Token))
    (rest : jsstring) :
  lexStart close = Some (LBetween, [closeTok]) ->
  closes (close :: rest) = true ->
  Forall (fun part => lexesAs part.1 part.2) parts ->
  lex LBetween (joinWith (js ",") (List.map fst parts) ++ close :: rest)
  = option_map (app (joinTokens (List.map snd parts) ++ [closeTok]))
      (lex LBetween rest).
Proof.
  intros Hclose Hcloses Hparts.
  induction Hparts as [|[text tokens] parts Hpart Hparts IH].
  - apply (lex_punctuation close closeTok rest Hclose).
  - simpl in Hpart. destruct parts as [|[text' tokens'] parts].
    + simpl. rewrite (Hpart _ Hcloses).
      rewrite (lex_punctuation close closeTok rest Hclose).
      apply option_map_app.
    + change (joinWith (js ",") (List.map fst ((text, tokens) :: (text', tokens') :: parts)))
        with (text ++ js "," ++ joinWith (js ",") (List.map fst ((text', tokens') :: parts))).
      change (joinTokens (List.map snd ((text, tokens) :: (text', tokens') :: parts)))
        with (tokens ++ TComma :: joinTokens (List.map snd ((text', tokens') :: parts))).
      rewrite <- !app_assoc.
      change (js "," ++ ?x) with (44 :: x).
      rewrite (Hpart (44 :: _) eq_refl).
      rewrite (lex_punctuation 44 TComma _ eq_refl), IH.
      rewrite !option_map_app, <- !app_assoc. reflexivity.
Qed.

Lemma lex_word (text : jsstring) (v : JSValue) :
  parseWord text = Some v -> forallb isLower text = true -> text <> [] ->
  lexesAs text [TScalar v].
Proof.
  intros Hword Hlower Hnonempty rest Hrest.
  assert (forall cs seen, forallb isLower cs = true ->
            lex (LWord seen) (cs ++ rest) = lex (LWord (rev cs ++ seen)) rest) as Hrun.
  { induction cs as [|c cs IH]; intros seen Hcs; [reflexivity|].
    simpl in Hcs. apply andb_true_iff in Hcs as [Hc Hcs].
    change ((c :: cs) ++ rest) with (c :: (cs ++ rest)).
    rewrite lex_cons. simpl lexStep. rewrite Hc, option_map_nil, IH by exact Hcs.
    simpl. rewrite <- app_assoc. reflexivity. }
  destruct text as [|c cs]; [congruence|].
  simpl in Hlower. apply andb_true_iff in Hlower as [Hc Hcs].
  change ((c :: cs) ++ rest) with (c :: (cs ++ rest)).
  rewrite lex_cons. simpl lexStep.
  assert (lexStart c = Some (LWord [c], [])) as ->.
  { unfold isLower in Hc. rewrite andb_true_iff, !N.leb_le in Hc.
    unfold lexStart, isJSONSpace, isDigit.
    change (ch "[") with 91. change (ch "]") with 93. change (ch "{") with 123.
    change (ch "}") with 125. change (ch ",") with 44. change (ch ":") with 58.
    change (ch "-") with 45.
    repeat match goal with
           | |- context [?a =? ?b] =>
               rewrite (proj2 (N.eqb_neq a b)) by lia
           end.
    assert ((48 <=? c) && (c <=? 57) = false) as ->
      by (apply andb_false_iff; right; apply N.leb_gt; lia).
    assert (isLower c = true) as ->
      by (unfold isLower; rewrite andb_true_iff, !N.leb_le; lia).
    reflexivity. }
  rewrite option_map_nil, Hrun by exact Hcs.
  apply lex_word_end; [exact Hrest|].
  rewrite rev_app_distr, rev_involutive. exact Hword.
Qed.

(** The text of a storable value is read as the tokens of the value. *)
Lemma lex_value (v : JSValue) :
  storable v = true -> lexesAs (JSON_stringify v) (tokensOf v).
Proof.
  induction v as [| b | m e | s | elems IH | members IH] using JSValue_induction;
    intros Hstorable.
  - apply lex_word; [reflexivity | reflexivity | discriminate].
  - destruct b; (apply lex_word; [reflexivity | reflexivity | discriminate]).
  - intros rest Hrest. apply lex_number; [|apply numberToString_chars | exact Hrest].
    apply parseNumber_numberToString, Hstorable.
  - intros rest _. apply lex_string.
  - intros rest Hrest. simpl in Hstorable.
    change (JSON_stringify (JArr elems))
      with (js "[" ++ joinWith (js ",") (List.map JSON_stringify elems) ++ js "]").
    change (tokensOf (JArr elems))
      with (TLBracket :: joinTokens (List.map tokensOf elems) ++ [TRBracket]).
    rewrite <- !app_assoc. change (js "[" ++ ?x) with (91 :: x).
    change (js "]" ++ rest) with (93 :: rest).
    rewrite (lex_punctuation 91 TLBracket _ eq_refl).
    pose proof (lex_joined 93 TRBracket
                  (List.map (fun v => (JSON_stringify v, tokensOf v)) elems) rest
                  eq_refl eq_refl) as Hjoined.
    rewrite !List.map_map in Hjoined. cbn [fst snd] in Hjoined.
    transitivity
      (option_map (app [TLBracket])
         (option_map (app (joinTokens (List.map tokensOf elems) ++ [TRBracket]))
            (lex LBetween rest)));
      [|apply (option_map_app [TLBracket])].
    f_equal. apply Hjoined.
    apply Forall_map. rewrite forallb_forall in Hstorable.
    rewrite Forall_forall in IH |- *. intros x Hx. simpl.
    apply IH; [exact Hx|]. apply Hstorable. apply list_elem_of_In. exact Hx.
  - intros rest Hrest. simpl in Hstorable.
    apply andb_true_iff in Hstorable as [Hstorable _].
    change (JSON_stringify (JObj members))
      with (js "{"
            ++ joinWith (js ",")
                 (List.map (fun kv => quoteJSONString kv.1 ++ js ":" ++ JSON_stringify kv.2)
                    members)
            ++ js "}").
    change (tokensOf (JObj members))
      with (TLBrace
            :: joinTokens
                 (List.map (fun kv => TScalar (JStr kv.1) :: TColon :: tokensOf kv.2)
                    members)
            ++ [TRBrace]).
    rewrite <- !app_assoc. change (js "{" ++ ?x) with (123 :: x).
    change (js "}" ++ rest) with (125 :: rest).
    rewrite (lex_punctuation 123 TLBrace _ eq_refl).
    pose proof (lex_joined 125 TRBrace
                  (List.map (fun kv => (quoteJSONString kv.1 ++ js ":" ++ JSON_stringify kv.2,
                                        TScalar (JStr kv.1) :: TColon :: tokensOf kv.2))
                     members) rest eq_refl eq_refl) as Hjoined.
    rewrite !List.map_map in Hjoined. cbn [fst snd] in Hjoined.
    transitivity
      (option_map (app [TLBrace])
         (option_map
            (app (joinTokens
                    (List.map (fun kv => TScalar (JStr kv.1) :: TColon :: tokensOf kv.2)
                       members)
                  ++ [TRBrace]))
            (lex LBetween rest)));
      [|apply (option_map_app [TLBrace])].
    f_equal. apply Hjoined.
    apply Forall_map. rewrite forallb_forall in Hstorable.
    rewrite Forall_forall in IH |- *. intros [k x] Hx. unfold compose. cbn [fst snd].
    intros rest' Hrest'. rewrite <- !app_assoc.
    rewrite lex_string. change (js ":" ++ ?y) with (58 :: y).
    rewrite (lex_punctuation 58 TColon _ eq_refl).
    rewrite (IH (k, x) Hx); [|apply (Hstorable (k, x)), list_elem_of_In, Hx | exact Hrest'].
    rewrite !option_map_app. reflexivity.
Qed.

(** ** Parsing the tokens of a value *)

Lemma parse_cons (st : ParseState) (t : Token) (ts : list Token) :
  parseTokens st (t :: ts) =
    match parseStep st t with
    | Some st' => parseTokens st' ts
    | None => None
    end.
Proof. reflexivity. Qed.

Lemma parse_scalar (v : JSValue) : parsesAs [TScalar v] v.
Proof.
  intros expect stack ts [-> | ->]; change ([TScalar v] ++ ts) with (TScalar v :: ts);
    rewrite parse_cons; reflexivity.
Qed.

(** The elements of an array after the first, up to the closing bracket. *)
Lemma parse_elements (elems : list JSValue) :
  Forall (fun v => parsesAs (tokensOf v) v) elems ->
  forall expect seen stack ts, startsValue expect -> elems <> [] ->
    parseTokens (expect, FArr seen :: stack)
      (joinTokens (List.map tokensOf elems) ++ TRBracket :: ts)
    = parseTokens (complete (JArr (rev seen ++ elems)) stack) ts.
Proof.
  induction 1 as [|v elems Hv Helems IH]; intros expect seen stack ts Hexpect Hne;
    [congruence|].
  destruct elems as [|v' elems].
  - change (joinTokens (List.map tokensOf [v])) with (tokensOf v).
    rewrite Hv by exact Hexpect. rewrite parse_cons. reflexivity.
  - change (joinTokens (List.map tokensOf (v :: v' :: elems)))
      with (tokensOf v ++ TComma :: joinTokens (List.map tokensOf (v' :: elems))).
    rewrite <- app_assoc. rewrite Hv by exact Hexpect.
    change ((TComma :: ?l) ++ ?r) with (TComma :: (l ++ r)).
    rewrite parse_cons.
    change (parseStep (complete v (FArr seen :: stack)) TComma)
      with (Some (EValue, FArr (v :: seen) :: stack)).
    cbv beta iota. rewrite IH by first [left; reflexivity | discriminate].
    simpl rev. rewrite <- app_assoc. reflexivity.
Qed.

Lemma setMember_fresh (k : jsstring) (v : JSValue) (ms : list (jsstring * JSValue)) :
  ~ In k (List.map fst ms) -> setMember k v ms = ms ++ [(k, v)].
Proof.
  induction ms as [|[k' v'] ms IH]; intros Hk; [reflexivity|].
  simpl. unfold jsstring_eqb.
  rewrite bool_decide_eq_false_2 by (intros ->; apply Hk; left; reflexivity).
  rewrite IH; [reflexivity|]. intros H. apply Hk. right. exact H.
Qed.

Lemma distinctKeys_NoDup (keys : list jsstring) :
  distinctKeys keys = true -> List.NoDup keys.
Proof.
  induction keys as [|k keys IH]; intros H; [constructor|].
  simpl in H. apply andb_true_iff in H as [Hk Hkeys].
  constructor; [|apply IH, Hkeys].
  intros Hin. apply negb_true_iff in Hk.
  assert (existsb (jsstring_eqb k) keys = true) as Hex; [|congruence].
  apply existsb_exists. exists k. split; [exact Hin|].
  unfold jsstring_eqb. apply bool_decide_eq_true_2. reflexivity.
Qed.

(** Assigning members with distinct keys one after the other keeps them. *)
Lemma objectOf_distinct (members : list (jsstring * JSValue)) :
  distinctKeys (List.map fst members) = true ->
  objectOf (rev members) = JObj members.
Proof.
  intros Hdistinct%distinctKeys_NoDup. unfold objectOf. rewrite rev_involutive.
  f_equal.
  assert (forall acc,
            List.NoDup (List.map fst (acc ++ members)) ->
            fold_left (fun ms kv => setMember kv.1 kv.2 ms) members acc
            = acc ++ members) as Hfold.
  { clear Hdistinct. induction members as [|[k v] members IH]; intros acc Hnodup.
    - simpl. rewrite List.app_nil_r. reflexivity.
    - simpl. rewrite setMember_fresh.
      + rewrite IH; rewrite <- app_assoc; [reflexivity | exact Hnodup].
      + rewrite List.map_app in Hnodup. simpl in Hnodup.
        apply NoDup_remove_2 in Hnodup. intros Hin. apply Hnodup.
        apply in_or_app. left. exact Hin. }
  apply (Hfold []). exact Hdistinct.
Qed.

(** The members of an object after the opening brace. *)
Lemma parse_members (members : list (jsstring * JSValue)) :
  Forall (fun kv => parsesAs (tokensOf kv.2) kv.2) members ->
  forall expect seen key stack ts,
    expect = EKey \/ expect = EKeyOrClose -> members <> [] ->
    parseTokens (expect, FObj seen key :: stack)
      (joinTokens
         (List.map (fun kv => TScalar (JStr kv.1) :: TColon :: tokensOf kv.2) members)
       ++ TRBrace :: ts)
    = parseTokens (complete (objectOf (rev members ++ seen)) stack) ts.
Proof.
  induction 1 as [|[k v] members Hv Hmembers IH];
    intros expect seen key stack ts Hexpect Hne; [congruence|].
  cbn [snd] in Hv.
  assert (forall ts',
            parseTokens (expect, FObj seen key :: stack)
              ((TScalar (JStr k) :: TColon :: tokensOf v) ++ ts')
            = parseTokens (EAfter, FObj ((k, v) :: seen) k :: stack) ts') as Hmember.
  { intros ts'.
    change ((TScalar (JStr k) :: TColon :: tokensOf v) ++ ts')
      with (TScalar (JStr k) :: TColon :: (tokensOf v ++ ts')).
    rewrite parse_cons.
    assert (parseStep (expect, FObj seen key :: stack) (TScalar (JStr k))
            = Some (EColon k, FObj seen key :: stack)) as ->
      by (destruct Hexpect as [-> | ->]; reflexivity).
    rewrite parse_cons.
    change (parseStep (EColon k, FObj seen key :: stack) TColon)
      with (Some (EValue, FObj seen k :: stack)).
    cbv beta iota. rewrite Hv by (left; reflexivity). reflexivity. }
  destruct members as [|[k' v'] members].
  - change (joinTokens
              (List.map (fun kv => TScalar (JStr kv.1) :: TColon :: tokensOf kv.2) [(k, v)]))
      with (TScalar (JStr k) :: TColon :: tokensOf v).
    rewrite Hmember, parse_cons. reflexivity.
  - change (joinTokens
              (List.map (fun kv => TScalar (JStr kv.1) :: TColon :: tokensOf kv.2)
                 ((k, v) :: (k', v') :: members)))
      with ((TScalar (JStr k) :: TColon :: tokensOf v)
            ++ TComma
            :: joinTokens
                 (List.map (fun kv => TScalar (JStr kv.1) :: TColon :: tokensOf kv.2)
                    ((k', v') :: members))).
    rewrite <- app_assoc, Hmember.
    change ((TComma :: ?l) ++ ?r) with (TComma :: (l ++ r)).
    rewrite parse_cons.
    change (parseStep (EAfter, FObj ((k, v) :: seen) k :: stack) TComma)
      with (Some (EKey, FObj ((k, v) :: seen) k :: stack)).
    cbv beta iota. rewrite IH by first [left; reflexivity | discriminate].
    simpl rev. rewrite <- !app_assoc. reflexivity.
Qed.

(** The tokens of a storable value are read as the value. *)
Lemma parse_value (v : JSValue) : storable v = true -> parsesAs (tokensOf v) v.
Proof.
  induction v as [| b | m e | s | elems IH | members IH] using JSValue_induction;
    intros Hstorable; try apply parse_scalar.
  - intros expect stack ts Hexpect.
    change (tokensOf (JArr elems) ++ ts)
      with (TLBracket :: ((joinTokens (List.map tokensOf elems) ++ [TRBracket]) ++ ts)).
    rewrite parse_cons.
    assert (parseStep (expect, stack) TLBracket = Some (EValueOrClose, FArr [] :: stack))
      as -> by (destruct Hexpect as [-> | ->]; reflexivity).
    rewrite <- app_assoc. change ([TRBracket] ++ ts) with (TRBracket :: ts).
    destruct elems as [|v elems]; [reflexivity|].
    apply (parse_elements (v :: elems)); [|right; reflexivity | discriminate].
    simpl in Hstorable. rewrite Forall_forall in IH |- *. intros x Hx.
    apply IH; [exact Hx|].
    change (forallb storable (v :: elems) = true) in Hstorable.
    rewrite forallb_forall in Hstorable. apply Hstorable, list_elem_of_In, Hx.
  - intros expect stack ts Hexpect. simpl in Hstorable.
    apply andb_true_iff in Hstorable as [Hvalues Hkeys].
    change (tokensOf (JObj members) ++ ts)
      with (TLBrace
            :: ((joinTokens
                   (List.map (fun kv => TScalar (JStr kv.1) :: TColon :: tokensOf kv.2)
                      members)
                 ++ [TRBrace]) ++ ts)).
    rewrite parse_cons.
    assert (parseStep (expect, stack) TLBrace = Some (EKeyOrClose, FObj [] [] :: stack))
      as -> by (destruct Hexpect as [-> | ->]; reflexivity).
    rewrite <- app_assoc. change ([TRBrace] ++ ts) with (TRBrace :: ts).
    destruct members as [|kv members]; [reflexivity|].
    rewrite (parse_members (kv :: members)); [|..|right; reflexivity | discriminate].
    + rewrite List.app_nil_r, objectOf_distinct by exact Hkeys. reflexivity.
    + rewrite Forall_forall in IH |- *. intros x Hx. apply IH; [exact Hx|].
      rewrite forallb_forall in Hvalues. apply (Hvalues x), list_elem_of_In, Hx.
Qed.

(** Saving and loading: the text [JSON.stringify] writes for a storable
    value is parsed by [JSON.parse] as the same value.  Numbers are the exact
    decimals of this development, written in positional notation; they are
    JavaScript's numbers and texts for the integers below 2^53, the only
    numbers the component builds (its timestamps). *)
Theorem JSON_parse_stringify (v : JSValue) :
  storable v = true -> JSON_parse (JSON_stringify v) = Some v.
Proof.
  intros Hstorable. unfold JSON_parse.
  rewrite <- (List.app_nil_r (JSON_stringify v)).
  rewrite (lex_value v Hstorable [] eq_refl).
  change (lex LBetween []) with (Some (@nil Token)). cbn [option_map].
  rewrite (parse_value v Hstorable EValue [] [] (or_introl eq_refl)). reflexivity.
Qed.

(** ** What [JSON.parse] returns is storable *)

Lemma spanDigits_lt (s : list N) : Forall (fun d => d < 10) (spanDigits s).1.
Proof.
  induction s as [|c s IH]; [constructor|].
  rewrite spanDigits_cons. destruct (isDigit c) eqn:Hc; [|constructor].
  destruct (spanDigits s) as [ds rest]. simpl in *. constructor; [|exact IH].
  unfold isDigit in Hc. rewrite andb_true_iff, !N.leb_le in Hc. lia.
Qed.

Lemma decimal_storable (negative : bool) (ds : list N) (exp : Z) :
  Forall (fun d => d < 10) ds -> storable (decimal negative ds exp) = true.
Proof.
  intros Hds. destruct (decimal_canonical negative ds exp Hds) as (m & e & -> & H).
  exact H.
Qed.

Lemma parseNumber_storable (s : list N) (v : JSValue) :
  parseNumber s = Some v -> storable v = true.
Proof.
  unfold parseNumber.
  set (signed := match s with
                 | c :: s' => if c =? ch "-" then (true, s') else (false, s)
                 | [] => (false, s)
                 end).
  destruct signed as [negative s1].
  pose proof (spanDigits_lt s1) as Hint.
  destruct (spanDigits s1) as [int s2]. simpl in Hint.
  set (fraction := match s2 with
                   | c :: s' =>
                       if c =? ch "." then
                         let (ds, rest) := spanDigits s' in (ds, truthy ds, rest)
                       else ([], true, s2)
                   | [] => ([], true, s2)
                   end).
  assert (Forall (fun d => d < 10) fraction.1.1) as Hfrac.
  { subst fraction. destruct s2 as [|c s']; [constructor|].
    destruct (c =? ch "."); [|constructor].
    pose proof (spanDigits_lt s') as H. destruct (spanDigits s'). exact H. }
  destruct fraction as [[frac fracOk] s3]. simpl in Hfrac.
  match goal with
  | |- (match ?x with pair _ _ => _ end) = _ -> _ => destruct x as [[exp expOk] s4]
  end.
  destruct (_ && _); [|discriminate]. intros [= <-].
  apply decimal_storable, Forall_app. split; assumption.
Qed.

Lemma parseWord_storable (s : list N) (v : JSValue) :
  parseWord s = Some v -> storable v = true.
Proof.
  unfold parseWord.
  repeat match goal with |- context [if ?b then _ else _] => destruct b end;
    intros [= <-]; reflexivity.
Qed.

Lemma lexStart_storable (c : N) (st : LexState) (toks : list Token) :
  lexStart c = Some (st, toks) -> Forall tokenStorable toks.
Proof.
  unfold lexStart.
  repeat match goal with |- context [if ?b then _ else _] => destruct b end;
    intros [= <- <-]; repeat constructor.
Qed.

Lemma lexAfter_storable (v : option JSValue) (c : N) (st : LexState)
    (toks : list Token) :
  (forall x, v = Some x -> storable x = true) ->
  lexAfter v c = Some (st, toks) -> Forall tokenStorable toks.
Proof.
  intros Hv. unfold lexAfter. destruct v as [x|]; [|discriminate].
  destruct (lexStart c) as [[st0 toks0]|] eqn:Hstart; [|discriminate].
  intros [= <- <-]. constructor; [apply Hv; reflexivity|].
  apply (lexStart_storable c st0 toks0 Hstart).
Qed.

Lemma lexStep_storable (st : LexState) (c : N) (st' : LexState) (toks : list Token) :
  lexStep st c = Some (st', toks) -> Forall tokenStorable toks.
Proof.
  destruct st as [| seen | seen | seen | seen | seen count code]; simpl.
  - apply lexStart_storable.
  - destruct (isLower c); [intros [= <- <-]; constructor|].
    apply lexAfter_storable. intros x. apply parseWord_storable.
  - destruct (isNumberChar c); [intros [= <- <-]; constructor|].
    apply lexAfter_storable. intros x. apply parseNumber_storable.
  - repeat match goal with |- context [if ?b then _ else _] => destruct b end;
      intros [= <- <-]; repeat constructor.
  - repeat match goal with |- context [if ?b then _ else _] => destruct b end;
      intros [= <- <-]; repeat constructor.
  - destruct (hexValue c); [|discriminate].
    destruct (count =? 3)%nat; intros [= <- <-]; constructor.
Qed.

Lemma lex_storable (s : list N) (st : LexState) (toks : list Token) :
  lex st s = Some toks -> Forall tokenStorable toks.
Proof.
  revert st toks. induction s as [|c s IH]; intros st toks.
  - simpl. destruct st; simpl; try discriminate.
    + intros [= <-]. constructor.
    + destruct (parseWord (rev seen)) as [v|] eqn:Hv; [|discriminate].
      intros [= <-]. repeat constructor. apply (parseWord_storable _ _ Hv).
    + destruct (parseNumber (rev seen)) as [v|] eqn:Hv; [|discriminate].
      intros [= <-]. repeat constructor. apply (parseNumber_storable _ _ Hv).
  - rewrite lex_cons.
    destruct (lexStep st c) as [[st' toks0]|] eqn:Hstep; [|discriminate].
    destruct (lex st' s) as [toks1|] eqn:Hrest; [|discriminate].
    intros [= <-]. apply Forall_app. split.
    + apply (lexStep_storable _ _ _ _ Hstep).
    + apply (IH _ _ Hrest).
Qed.

Lemma jsstring_eqb_sym (a b : jsstring) : jsstring_eqb a b = jsstring_eqb b a.
Proof.
  unfold jsstring_eqb. destruct (decide (a = b)) as [-> | Hne]; [reflexivity|].
  rewrite !bool_decide_eq_false_2 by congruence. reflexivity.
Qed.

Lemma distinctKeys_snoc (keys : list jsstring) (k : jsstring) :
  distinctKeys keys = true -> existsb (jsstring_eqb k) keys = false ->
  distinctKeys (keys ++ [k]) = true.
Proof.
  induction keys as [|a keys IH]; intros Hkeys Hk; [reflexivity|].
  simpl in *. apply andb_true_iff in Hkeys as [Ha Hkeys].
  apply orb_false_iff in Hk as [Hka Hk].
  rewrite existsb_app, IH by assumption. simpl.
  rewrite (jsstring_eqb_sym a k), Hka.
  apply negb_true_iff in Ha. rewrite Ha. reflexivity.
Qed.

Lemma setMember_keys (k : jsstring) (v : JSValue) (ms : list (jsstring * JSValue)) :
  List.map fst (setMember k v ms) =
    if existsb (jsstring_eqb k) (List.map fst ms) then List.map fst ms
    else List.map fst ms ++ [k].
Proof.
  induction ms as [|[k' v'] ms IH]; [reflexivity|]. simpl.
  destruct (jsstring_eqb k k') eqn:Heq; simpl.
  - unfold jsstring_eqb in Heq. apply bool_decide_eq_true_1 in Heq. subst k'.
    reflexivity.
  - rewrite IH. destruct (existsb _ _); reflexivity.
Qed.

Lemma setMember_values (k : jsstring) (v : JSValue) (ms : list (jsstring * JSValue)) :
  storable v = true -> membersStorable ms = true ->
  membersStorable (setMember k v ms) = true.
Proof.
  intros Hv. unfold membersStorable.
  induction ms as [|[k' v'] ms IH]; simpl; [rewrite Hv; reflexivity|].
  intros [Hv' Hms]%andb_true_iff. destruct (jsstring_eqb k k'); simpl.
  - rewrite Hv, Hms. reflexivity.
  - rewrite Hv', IH by exact Hms. reflexivity.
Qed.

Lemma objectOf_storable (seen : list (jsstring * JSValue)) :
  membersStorable seen = true -> storable (objectOf seen) = true.
Proof.
  intros Hseen. unfold objectOf.
  assert (membersStorable (rev seen) = true) as Hrev
    by (unfold membersStorable; rewrite forallb_reverse; exact Hseen).
  assert (forall acc,
            membersStorable acc = true -> distinctKeys (List.map fst acc) = true ->
            storable (JObj (fold_left (fun ms kv => setMember kv.1 kv.2 ms)
                              (rev seen) acc)) = true) as Hfold.
  { induction (rev seen) as [|[k v] l IH]; intros acc Hacc Hkeys.
    - simpl. apply andb_true_iff. split; assumption.
    - simpl in Hrev. apply andb_true_iff in Hrev as [Hv Hl].
      simpl. apply IH; [exact Hl | apply setMember_values; assumption|].
      rewrite setMember_keys.
      destruct (existsb (jsstring_eqb k) (List.map fst acc)) eqn:Hk; [exact Hkeys|].
      apply distinctKeys_snoc; assumption. }
  apply Hfold; reflexivity.
Qed.

Lemma complete_storable (v : JSValue) (stack : list Frame) :
  storable v = true -> Forall frameStorable stack ->
  stateStorable (complete v stack).
Proof.
  intros Hv Hstack. destruct stack as [|[seen | seen key] stack]; simpl.
  - split; [constructor | exact Hv].
  - inversion Hstack as [|? ? Hframe Hrest]; subst. split; [|exact I].
    constructor; [|exact Hrest]. simpl in *. rewrite Hv, Hframe. reflexivity.
  - inversion Hstack as [|? ? Hframe Hrest]; subst. split; [|exact I].
    constructor; [|exact Hrest]. unfold frameStorable, membersStorable in *.
    simpl. rewrite Hv, Hframe. reflexivity.
Qed.

Lemma array_storable (seen : list JSValue) :
  forallb storable seen = true -> storable (JArr (rev seen)) = true.
Proof. intros H. simpl. rewrite forallb_reverse. exact H. Qed.

Lemma parseStep_storable (st st' : ParseState) (t : Token) :
  stateStorable st -> tokenStorable t -> parseStep st t = Some st' ->
  stateStorable st'.
Proof.
  destruct st as [expect stack]. intros [Hstack _] Ht.
  assert (forall st0, parseValueStart t stack = Some st0 -> stateStorable st0) as Hstart.
  { intros st0. unfold parseValueStart. destruct t; try discriminate.
    - intros [= <-]. split; [|exact I]. constructor; [reflexivity | exact Hstack].
    - intros [= <-]. split; [|exact I]. constructor; [reflexivity | exact Hstack].
    - intros [= <-]. apply complete_storable; assumption. }
  simpl in Hstack.
  destruct expect; simpl.
  - apply Hstart.
  - destruct t; try apply Hstart.
    destruct stack as [|[seen | seen key] stack]; try apply Hstart.
    intros [= <-]. inversion Hstack; subst.
    apply complete_storable; [apply array_storable|]; assumption.
  - destruct t; try discriminate.
    + destruct stack as [|[seen | seen key] stack]; try discriminate.
      intros [= <-]. inversion Hstack; subst.
      apply complete_storable; [apply objectOf_storable|]; assumption.
    + destruct v; try discriminate. intros [= <-]. split; [exact Hstack | exact I].
  - destruct t; try discriminate. destruct v; try discriminate.
    intros [= <-]. split; [exact Hstack | exact I].
  - destruct t; try discriminate.
    destruct stack as [|[seen | seen key0] stack]; try discriminate.
    intros [= <-]. inversion Hstack; subst. split; [|exact I].
    constructor; assumption.
  - destruct t; try discriminate;
      destruct stack as [|[seen | seen key] stack]; try discriminate;
      intros [= <-]; inversion Hstack; subst.
    + apply complete_storable; [apply array_storable|]; assumption.
    + apply complete_storable; [apply objectOf_storable|]; assumption.
    + split; [exact Hstack | exact I].
    + split; [exact Hstack | exact I].
  - discriminate.
Qed.

Lemma parseTokens_storable (ts : list Token) (st : ParseState) (v : JSValue) :
  stateStorable st -> Forall tokenStorable ts -> parseTokens st ts = Some v ->
  storable v = true.
Proof.
  revert st. induction ts as [|t ts IH]; intros st Hst Hts.
  - simpl. destruct st as [[] stack]; try discriminate.
    intros [= <-]. apply Hst.
  - rewrite parse_cons. destruct (parseStep st t) as [st'|] eqn:Hstep; [|discriminate].
    inversion Hts; subst. apply IH; [|assumption].
    apply (parseStep_storable st st' t); assumption.
Qed.

(** Whatever [JSON.parse] returns is storable. *)
Lemma JSON_parse_storable (text : jsstring) (v : JSValue) :
  JSON_parse text = Some v -> storable v = true.
Proof.
  unfold JSON_parse. destruct (lex LBetween text) as [ts|] eqn:Hlex; [|discriminate].
  apply parseTokens_storable; [|apply (lex_storable _ _ _ Hlex)].
  split; [constructor | exact I].
Qed.

(** ** A reload restores the history *)

Lemma toJS_storable (item : HistoryItem.t) : storable (HistoryItem.toJS item) = true.
Proof.
  unfold HistoryItem.toJS.
  change (storable (JObj ?ms))
    with (forallb (fun kv => storable kv.2) ms && distinctKeys (List.map fst ms)).
  cbn [forallb snd storable]. rewrite numberOfZ_storable. reflexivity.
Qed.

Lemma spread_storable (h : JSValue) (elems : list JSValue) :
  storable h = true -> spread h = Some elems -> forallb storable elems = true.
Proof.
  destruct h; simpl; try discriminate.
  - intros _ [= <-]. induction (codePoints s); [reflexivity | assumption].
  - intros H [= <-]. exact H.
Qed.

Lemma forallb_take {A} (p : A -> bool) (n : nat) (l : list A) :
  forallb p l = true -> forallb p (take n l) = true.
Proof.
  revert n. induction l as [|x l IH]; intros [|n] H; try reflexivity.
  simpl in *. apply andb_true_iff in H as [Hx Hl]. rewrite Hx, IH by exact Hl.
  reflexivity.
Qed.

(** A step leaves the history alone, empties it, or records the item of a
    settled generation on it. *)
Lemma step_history (w w' : World) (e : Event) :
  step w e = Some w' ->
  State.history (ui w') = State.history (ui w)
  \/ State.history (ui w') = JArr []
  \/ exists req result uuid now elems,
       e = GenerateSettled req (Some result) uuid now
       /\ spread (State.history (ui w)) = Some elems
       /\ State.history (ui w') =
            JArr (take 10 (HistoryItem.toJS (newItemOf req result uuid now) :: elems)).
Proof.
  intros Hstep.
  destruct (step_storage_history w w' e Hstep) as [[_ Hsame] | _];
    [left; exact Hsame|].
  destruct e; simpl in Hstep;
    try (injection Hstep as <-; left; reflexivity).
  - destruct (State.isLoading (ui w)); injection Hstep as <-; left;
      [reflexivity | apply handleGenerate_begin_history].
  - injection Hstep as <-. left. unfold handleKeyDown.
    destruct (_ && _); [apply handleGenerate_begin_history | reflexivity].
  - injection Hstep as <-. left. apply handleGenerate_begin_history.
  - unfold handleGenerate_settle, recordHistory in Hstep.
    destruct result as [r|]; simpl in Hstep; [|injection Hstep as <-; left; reflexivity].
    destruct (spread (State.history (ui w))) as [elems|] eqn:Hspread; [|discriminate].
    injection Hstep as <-. right. right. exists req, r, uuid, now, elems.
    split; [reflexivity|]. split; reflexivity.
  - injection Hstep as <-. right. left. reflexivity.
  - injection Hstep as <-. left. unfold recordButton_onClick.
    destruct (State.isTranscribing (ui w)); [reflexivity|].
    destruct (State.isRecording (ui w)); [apply stopRecording_history | reflexivity].
  - destruct (0 <? microphoneRequests w)%nat; injection Hstep as <-; left;
      [destruct mic|]; reflexivity.
  - injection Hstep as <-. left. unfold ondataavailable.
    destruct (0 <? _)%nat; reflexivity.
  - injection Hstep as <-. left. unfold onstop_settle.
    destruct text as [text|]; [destruct (truthy text)|]; reflexivity.
Qed.

(** The history of every state the component reaches is storable. *)
Lemma reachable_storable (storage : gmap jsstring jsstring) (events : list Event)
    (w : World) :
  run (mount storage) events = Some w -> storable (State.history (ui w)) = true.
Proof.
  apply (run_invariant (fun w => storable (State.history (ui w)) = true)).
  - intros w0 e w1 Hw0
      [-> | [-> | (req & r & uuid & now & elems & _ & Hspread & ->)]]%step_history;
      [exact Hw0 | reflexivity |].
    change (forallb storable
              (take 10 (HistoryItem.toJS (newItemOf req r uuid now) :: elems)) = true).
    apply forallb_take. cbn [forallb]. rewrite toJS_storable.
    apply (spread_storable _ _ Hw0 Hspread).
  - rewrite mount_history. destruct (storage !! yap_history) as [saved|]; [|reflexivity].
    destruct (JSON_parse saved) as [v|] eqn:Hparse; [|reflexivity].
    destruct (truthy saved); [|reflexivity].
    apply (JSON_parse_storable saved v Hparse).
Qed.

(** The storage of every state the component reaches holds the text of its
    history. *)
Lemma reachable_storage (storage : gmap jsstring jsstring) (events : list Event)
    (w : World) :
  run (mount storage) events = Some w ->
  localStorage w !! yap_history = Some (JSON_stringify (State.history (ui w))).
Proof.
  apply (run_invariant
           (fun w => localStorage w !! yap_history =
                     Some (JSON_stringify (State.history (ui w))))).
  - intros w0 e w1 Hw0 [[Hs Hh] | Hs]%step_storage_history.
    + rewrite Hs, Hh. exact Hw0.
    + rewrite Hs. apply lookup_insert_eq.
  - apply mount_storage.
Qed.

(** A sequence of items is storable. *)
Lemma items_storable (items : list HistoryItem.t) :
  storable (JArr (List.map HistoryItem.toJS items)) = true.
Proof.
  change (forallb storable (List.map HistoryItem.toJS items) = true).
  induction items as [|i items IH]; [reflexivity|].
  cbn [List.map forallb]. rewrite toJS_storable. exact IH.
Qed.

(** A component mounted on a storage that holds items starts with items. *)
Lemma mount_items (storage : gmap jsstring jsstring) :
  holdsItems storage -> exists items, itemsOf (State.history (ui (mount storage))) items.
Proof.
  unfold holdsItems. rewrite mount_history.
  destruct (storage !! yap_history) as [saved|];
    [|intros _; exists []; split; reflexivity].
  intros (h & items & [-> Htimes] & ->).
  rewrite (JSON_parse_stringify _ (items_storable items)).
  destruct (truthy _); [exists items | exists []]; split; (reflexivity || assumption).
Qed.

(** A step whose clock reading is a time value takes items to items. *)
Lemma step_items (w w' : World) (e : Event) (items : list HistoryItem.t) :
  plausible e = true ->
  step w e = Some w' ->
  itemsOf (State.history (ui w)) items ->
  exists items', itemsOf (State.history (ui w')) items'.
Proof.
  intros Hplausible
    [Hsame | [Hempty | (req & r & uuid & now & elems & -> & Hspread & Hnew)]]%step_history
    [Hitems Htimes].
  - exists items. split; [rewrite Hsame; exact Hitems | exact Htimes].
  - exists []. split; [exact Hempty | reflexivity].
  - rewrite Hitems in Hspread. injection Hspread as <-.
    exists (take 10 (newItemOf req r uuid now :: items)). split.
    + rewrite Hnew. f_equal.
      change (HistoryItem.toJS (newItemOf req r uuid now) :: List.map HistoryItem.toJS items)
        with (List.map HistoryItem.toJS (newItemOf req r uuid now :: items)).
      symmetry. apply (fmap_take HistoryItem.toJS).
    + apply forallb_take. cbn [forallb]. simpl in Hplausible.
      rewrite Htimes. cbn [newItemOf HistoryItem.timestamp]. rewrite Hplausible.
      reflexivity.
Qed.

Lemma run_items (events : list Event) (w w' : World) :
  forallb plausible events = true ->
  run w events = Some w' ->
  (exists items, itemsOf (State.history (ui w)) items) ->
  exists items, itemsOf (State.history (ui w')) items.
Proof.
  revert w. induction events as [|e events IH]; intros w Hplausible; simpl.
  - intros [= <-] Hw. exact Hw.
  - simpl in Hplausible. apply andb_true_iff in Hplausible as [He Hevents].
    destruct (step w e) as [w1|] eqn:Hstep; [|discriminate].
    intros Hrun [items Hitems]. apply (IH w1 Hevents Hrun).
    apply (step_items w w1 e items He Hstep Hitems).
Qed.

(** Reloading the page loses nothing.  Take a storage with no history
    entry, or with the text of a sequence of items, and a run in which the
    clock gives time values.  Then the history is a sequence of items, the
    storage holds its text (so a later start is again such a start), and a
    component mounted on the storage as it is now starts with the history the
    running component holds, leaves the stored text as it is, and logs no
    parse failure. *)
Theorem reload_restores_history (storage : gmap jsstring jsstring)
    (events : list Event) (w : World) :
  holdsItems storage ->
  forallb plausible events = true ->
  run (mount storage) events = Some w ->
  (exists items, itemsOf (State.history (ui w)) items)
  /\ holdsItems (localStorage w)
  /\ State.history (ui (mount (localStorage w))) = State.history (ui w)
  /\ localStorage (mount (localStorage w)) !! yap_history
     = localStorage w !! yap_history
  /\ console (mount (localStorage w)) = [].
Proof.
  intros Hstorage Hplausible Hrun.
  destruct (run_items events (mount storage) w Hplausible Hrun (mount_items storage Hstorage))
    as [items Hitems].
  pose proof (reachable_storage storage events w Hrun) as Hstored.
  assert (storable (State.history (ui w)) = true) as Hstorable
    by (rewrite (proj1 Hitems); apply items_storable).
  assert (State.history (ui (mount (localStorage w))) = State.history (ui w)) as Hsame.
  { rewrite mount_history, Hstored, (JSON_parse_stringify _ Hstorable).
    destruct (JSON_stringify (State.history (ui w))) eqn:Htext; [|reflexivity].
    pose proof (JSON_parse_stringify _ Hstorable) as Hparse.
    rewrite Htext in Hparse. discriminate Hparse. }
  split; [exists items; exact Hitems|]. split.
  { unfold holdsItems. rewrite Hstored.
    exists (State.history (ui w)), items. split; [exact Hitems | reflexivity]. }
  split; [exact Hsame|]. split.
  - rewrite mount_storage, Hsame, Hstored. reflexivity.
  - rewrite mount_console, Hstored, (JSON_parse_stringify _ Hstorable). reflexivity.
Qed.

Lemma reload_restores_history_witness :
  exists w,
    run (mount (storageWith (JSON_stringify (JArr
           [HistoryItem.toJS (newItemOf (requestOf (typed (js "dogs"))) (js "old")
                                (js "u0") 1600000000000)]))))
      [TopicInput (js "cats"); GenerateClick;
       GenerateSettled (requestOf (typed (js "cats"))) (Some (js "yap")) (js "u1")
         1700000000000] = Some w
    /\ State.history (ui (mount (localStorage w))) = State.history (ui w)
    /\ console (mount (localStorage w)) = [].
Proof.
  eexists. split; [vm_compute; reflexivity|].
  refine ((fun H => conj (proj1 (proj2 (proj2 H))) (proj2 (proj2 (proj2 (proj2 H)))))
            (reload_restores_history
               (storageWith (JSON_stringify (JArr
                  [HistoryItem.toJS (newItemOf (requestOf (typed (js "dogs"))) (js "old")
                                       (js "u0") 1600000000000)])))
               [TopicInput (js "cats"); GenerateClick;
                GenerateSettled (requestOf (typed (js "cats"))) (Some (js "yap")) (js "u1")
                  1700000000000] _ _ _ _)).
  - unfold holdsItems, storageWith. rewrite lookup_singleton_eq.
    eexists _, [newItemOf (requestOf (typed (js "dogs"))) (js "old") (js "u0") 1600000000000].
    split; [split; reflexivity | reflexivity].
  - reflexivity.
  - vm_compute. reflexivity.
Defined.

(** * The error banner and a refused microphone *)

(** A step leaves the error alone or sets one of the fixed texts (or none). *)
Lemma step_error (w w' : World) (e : Event) :
  step w e = Some w' ->
  State.error (ui w') = State.error (ui w) \/ knownError (State.error (ui w')).
Proof.
  assert (forall w0, State.error (ui (handleGenerate_begin w0).1) = State.error (ui w0)
                     \/ knownError (State.error (ui (handleGenerate_begin w0).1)))
    as Hbegin.
  { intros w0. right. unfold handleGenerate_begin.
    destruct (truthy (trim (State.topic (ui w0)))); simpl; [exact I|].
    left. reflexivity. }
  destruct e; simpl; try (intros [= <-]; left; reflexivity).
  - destruct (State.isLoading (ui w)); intros [= <-]; [left; reflexivity | apply Hbegin].
  - intros [= <-]. unfold handleKeyDown.
    destruct (_ && _); [apply Hbegin | left; reflexivity].
  - intros [= <-]. apply Hbegin.
  - unfold handleGenerate_settle. destruct result as [r|]; simpl.
    + destruct (recordHistory _ _); [|discriminate]. intros [= <-]. left. reflexivity.
    + intros [= <-]. right. simpl. right. left. reflexivity.
  - intros [= <-]. left. unfold recordButton_onClick, stopRecording.
    destruct (State.isTranscribing (ui w)); [reflexivity|].
    destruct (State.isRecording (ui w)); [|reflexivity].
    destruct (mediaRecorderRef w); reflexivity.
  - destruct (0 <? microphoneRequests w)%nat; intros [= <-]; [|left; reflexivity].
    right. destruct mic; simpl; [exact I|]. do 3 right. left. reflexivity.
  - intros [= <-]. left. unfold ondataavailable.
    destruct (0 <? _)%nat; reflexivity.
  - intros [= <-]. unfold onstop_settle.
    destruct text as [text|]; [destruct (truthy text)|]; simpl;
      [left; reflexivity | left; reflexivity |].
    right. do 2 right. left. reflexivity.
Qed.

(** The error banner only ever shows one of the four fixed texts: what a
    failed call or a refused microphone reports is never shown to the user
    (the microphone's error goes to the console only). *)
Theorem error_is_a_fixed_text (storage : gmap jsstring jsstring)
    (events : list Event) (w : World) :
  run (mount storage) events = Some w -> knownError (State.error (ui w)).
Proof.
  apply (run_invariant (fun w => knownError (State.error (ui w)))).
  - intros w0 e w1 Hw0 [Hsame | Hknown]%step_error; [rewrite Hsame|]; assumption.
  - unfold mount, loadHistoryEffect, localStorage_getItem. simpl.
    destruct (storage !! yap_history) as [saved|];
      [destruct (truthy saved), (JSON_parse saved)|]; exact I.
Qed.

Lemma error_is_a_fixed_text_witness :
  exists w,
    run (mount ∅)
      [RecordClick; MicrophoneSettled (Refused (js "NotAllowedError: Permission denied"))]
    = Some w
    /\ State.error (ui w) = Some (js "Microphone access denied or not supported.")
    /\ knownError (State.error (ui w)).
Proof.
  eexists. split; [vm_compute; reflexivity|]. split; [reflexivity|].
  apply (error_is_a_fixed_text ∅
           [RecordClick; MicrophoneSettled (Refused (js "NotAllowedError: Permission denied"))]).
  vm_compute. reflexivity.
Defined.

(** A refused microphone leaves an idle component idle: after the click
    and the refusal the flags are off, no recorder was created, the recorder
    reference and the chunks are what they were, no request is pending, the
    fixed text is shown and the error itself is on the console. *)
Theorem refused_microphone_stays_idle (err : jsstring) (w : World) :
  State.isRecording (ui w) = false ->
  State.isTranscribing (ui w) = false ->
  exists w',
    run w [RecordClick; MicrophoneSettled (Refused err)] = Some w'
    /\ State.isRecording (ui w') = false
    /\ State.isTranscribing (ui w') = false
    /\ recorders w' = recorders w
    /\ mediaRecorderRef w' = mediaRecorderRef w
    /\ audioChunksRef w' = audioChunksRef w
    /\ microphoneRequests w' = microphoneRequests w
    /\ State.error (ui w') = Some (js "Microphone access denied or not supported.")
    /\ console w' = console w ++ [err]
    /\ State.topic (ui w') = State.topic (ui w).
Proof.
  intros Hrecording Htranscribing.
  assert (recordButton_onClick w = startRecording_begin w) as Hclick
    by (unfold recordButton_onClick; rewrite Htranscribing, Hrecording; reflexivity).
  cbn [run step]. rewrite Hclick. simpl.
  eexists. split; [reflexivity|]. simpl.
  rewrite Hrecording, Htranscribing. repeat split.
Qed.

Lemma refused_microphone_stays_idle_witness :
  exists w',
    run (mount ∅) [RecordClick; MicrophoneSettled (Refused (js "denied"))] = Some w'
    /\ State.isRecording (ui w') = false
    /\ recorders w' = []
    /\ console w' = [js "denied"].
Proof.
  destruct (refused_microphone_stays_idle (js "denied") (mount ∅))
    as (w' & Hrun & Hflag & _ & Hrecorders & _ & _ & _ & _ & Hconsole & _);
    [reflexivity | reflexivity |].
  exists w'. split; [exact Hrun|]. split; [exact Hflag|].
  split; [exact Hrecorders | exact Hconsole].
Defined.
